(** * treat-toolbox: the artwork generation engine

    A shallow embedding of [functions/src/ArtworkGenerator.ts] and the
    properties of its sampler, conflict resolver, layer planner and batch
    loop.

    Conventions of the embedding:
    - a JS [number] holding a rarity or a random fraction is a rational
      ([Q]); a z-index and an item index are integers ([Z]);
    - [null] and [undefined] of an optional field are both [None];
    - a JS object used as a dictionary is a [gmap] keyed by strings;
    - the two random sources ([Math.random] and the [random-number-csprng]
      package), the rendering primitive and the upload are the environment
      [Env.t]; every request for a random number advances a counter (the
      [tick]) that is threaded through the code in program order. *)

From Stdlib Require Import ZArith QArith Qround Lia.
From stdpp Require Import base option list gmap strings pretty.

Local Open Scope Z_scope.
Local Open Scope string_scope.
Local Open Scope list_scope.
Local Open Scope stdpp_scope.

(** ** Data model ([models/models.ts], as used by the generator) *)

Module Trait.
Record t := mk {
  id : string;
  name : string;
  zIndex : Z;
  isAlwaysUnique : bool
}.
End Trait.

Module TraitValue.
Record t := mk {
  id : string;
  name : string;
  rarity : Q
}.
End TraitValue.

Module ImageLayer.
Record t := mk {
  id : string;
  traitValueId : option string;
  bucketFilename : string;
  companionLayerId : option string;
  companionLayerZIndex : option Z
}.
End ImageLayer.

Module OrderedImageLayer.
Record t := mk {
  imageLayer : ImageLayer.t;
  zIndex : Z
}.
End OrderedImageLayer.

Module TraitValuePair.
Record t := mk {
  trait : Trait.t;
  traitValue : option TraitValue.t;
  imageLayer : option ImageLayer.t
}.
End TraitValuePair.

Inductive ConflictResolutionType :=
| Trait1None
| Trait2None
| Trait1Random
| Trait2Random.

Module Conflict.
Record t := mk {
  trait1Id : string;
  trait1ValueId : option string;
  trait2Id : string;
  trait2ValueId : option string;
  resolutionType : ConflictResolutionType
}.
End Conflict.

Module Collection.
Record t := mk {
  id : string;
  supply : Z
}.
End Collection.

(** The fingerprint of a combination: which value id (or none) each trait
    id carries. *)
Abbreviation Hash := (gmap string (option string)).

Module ImageComposite.
Record t := mk {
  externalURL : option string;
  traits : list TraitValuePair.t;
  traitsHash : Hash
}.
End ImageComposite.

(** ** The environment *)

Module Env.
Record t := mk {
  (** the [n]-th request served by [Math.random()], a fraction of [0,1) *)
  mathRandom : nat -> Q;
  (** the [n]-th request served by [rand(0, max)] of random-number-csprng,
      an integer of [0, max] *)
  csprng : nat -> Z;
  (** whether sharp renders the given input files into the output file *)
  sharp : list string -> string -> bool;
  (** the public URL of the uploaded file, [None] when the upload fails *)
  upload : string -> option string;
  (** [os.tmpdir()] *)
  tmpdir : string
}.
End Env.

(** The outcome of a call: it returns a value or throws (an awaited promise
    that is rejected throws at the [await]). *)
Inductive Outcome (A : Type) :=
| Returns (a : A)
| Throws.
Arguments Returns {A} a.
Arguments Throws {A}.

(** Code that asks for random numbers: the tick goes in and comes out. *)
Definition M (A : Type) : Type := nat -> Outcome (A * nat).

Definition ret {A} (a : A) : M A := fun tick => Returns (a, tick).

Definition bind {A B} (m : M A) (k : A -> M B) : M B :=
  fun tick =>
    match m tick with
    | Returns (a, tick) => k a tick
    | Throws => Throws
    end.

Definition throw {A} : M A := fun _ => Throws.

Notation "'let*' x ':=' m 'in' k" := (bind m (fun x => k))
  (at level 10, x pattern, m at level 200, k at level 200).

(** ** RarityWeightedSampler *)

Definition TRAITVALUES_RARITY_MAX_PRECISION : nat := 4.

(** [randomNumber]: [rand(0, max).then(random => random / max)] with
    [max = 10^digitsPrecision]. *)
Definition randomNumber (env : Env.t) (digitsPrecision : nat) : M Q :=
  fun tick =>
    let max := Z.pow 10 (Z.of_nat digitsPrecision) in
    let random := Env.csprng env tick in
    Returns (Qdiv (inject_Z random) (inject_Z max), S tick).

(** The callback of [randomValue]: walk the segments, adding each rarity to
    [totalRarityRangeMax], until the random number lands in one. *)
Fixpoint walkSegments (values : list TraitValue.t) (randomNumber : Q)
  (totalRarityRangeMax : Q) : option TraitValue.t :=
  match values with
  | [] => None
  | value :: rest =>
      let totalRarityRangeMax := Qplus totalRarityRangeMax (TraitValue.rarity value) in
      if Qle_bool randomNumber totalRarityRangeMax then Some value
      else walkSegments rest randomNumber totalRarityRangeMax
  end.

(** [excludeTraitValueId != null && value?.id === excludeTraitValueId] *)
Definition isExcluded (excludeTraitValueId : option string)
  (value : option TraitValue.t) : bool :=
  match excludeTraitValueId, value with
  | Some ex, Some v => bool_decide (TraitValue.id v = ex)
  | _, _ => false
  end.

(** The [do ... while] loop of [randomValue]. [attemptsLeft] is
    [maxAttempts - attempts]: it is [0] exactly when the source's test
    [attempts == maxAttempts] holds, and [attempts++] decrements it. *)
Fixpoint randomValueLoop (env : Env.t) (values : list TraitValue.t)
  (excludeTraitValueId : option string) (attemptsLeft : nat)
  : M (option TraitValue.t) :=
  match attemptsLeft with
  | O => ret None
  | S attemptsLeft =>
      let* r := randomNumber env TRAITVALUES_RARITY_MAX_PRECISION in
      let value := walkSegments values r 0%Q in
      if isExcluded excludeTraitValueId value
      then randomValueLoop env values excludeTraitValueId attemptsLeft
      else ret value
  end.

Definition maxAttempts : nat := 10.

(** [values[i]] for a JS number [i] that is an integer: [undefined] out of
    range. *)
Definition jsIndex {A} (l : list A) (i : Z) : option A :=
  if Z.ltb i 0 then None else l !! Z.to_nat i.

(** [Math.random()] *)
Definition mathRandom (env : Env.t) : M Q :=
  fun tick => Returns (Env.mathRandom env tick, S tick).

Definition randomValue (env : Env.t) (values : list TraitValue.t)
  (isTraitAlwaysUnique : bool) (excludeTraitValueId : option string)
  : M (option TraitValue.t) :=
  if isTraitAlwaysUnique then
    let* u := mathRandom env in
    let randomIndex := Qfloor (Qmult u (inject_Z (Z.of_nat (length values)))) in
    let randomValue := jsIndex values randomIndex in
    ret randomValue
  else
    randomValueLoop env values excludeTraitValueId maxAttempts.

(** ** The draw *)

Abbreviation TraitValuesDict := (gmap string (list TraitValue.t)).

(** [traitValues[traitId]]: reading [length] of a missing entry throws. *)
Definition lookupValues (traitValues : TraitValuesDict) (traitId : string)
  : M (list TraitValue.t) :=
  match traitValues !! traitId with
  | Some values => ret values
  | None => throw
  end.

(** [traits.map(async trait => ...)] under [Promise.all]: the requests are
    issued in the order of [traits]. *)
Fixpoint randomTraitValues (env : Env.t) (traits : list Trait.t)
  (traitValues : TraitValuesDict) : M (list TraitValuePair.t) :=
  match traits with
  | [] => ret []
  | trait :: rest =>
      let* values := lookupValues traitValues (Trait.id trait) in
      let* value := randomValue env values (Trait.isAlwaysUnique trait) None in
      let* pairs := randomTraitValues env rest traitValues in
      ret (TraitValuePair.mk trait value None :: pairs)
  end.

(** ** ConflictResolver *)

Definition pairTraitId (pair : TraitValuePair.t) : string :=
  Trait.id (TraitValuePair.trait pair).

(** [pair.traitValue?.id] *)
Definition pairValueId (pair : TraitValuePair.t) : option string :=
  TraitValue.id <$> TraitValuePair.traitValue pair.

(** [traitValuePairs[index].traitValue = value] *)
Definition setTraitValue (index : nat) (value : option TraitValue.t)
  (traitValuePairs : list TraitValuePair.t) : list TraitValuePair.t :=
  alter (fun pair => TraitValuePair.mk (TraitValuePair.trait pair) value
                       (TraitValuePair.imageLayer pair))
        index traitValuePairs.

(** The test on a value id of a conflict: [None] means any value; otherwise
    some pair of the trait must carry exactly that value. *)
Definition valueMatches (traitId : string) (valueId : option string)
  (traitValuePairs : list TraitValuePair.t) : bool :=
  match valueId with
  | None => true
  | Some vid =>
      bool_decide (is_Some (list_find
        (fun pair => pairTraitId pair = traitId /\ pairValueId pair = Some vid)
        traitValuePairs))
  end.

(** One iteration of the [for] loop of [resolveConflicts]; every
    [continue] returns the pairs as they are. *)
Definition resolveConflict (env : Env.t) (traitValuesDict : TraitValuesDict)
  (traitValuePairs : list TraitValuePair.t) (conflict : Conflict.t)
  : M (list TraitValuePair.t) :=
  match list_find (fun pair => pairTraitId pair = Conflict.trait1Id conflict)
                  traitValuePairs with
  | None => ret traitValuePairs
  | Some (trait1Index, pair1) =>
  match list_find (fun pair => pairTraitId pair = Conflict.trait2Id conflict)
                  traitValuePairs with
  | None => ret traitValuePairs
  | Some (trait2Index, pair2) =>
      if negb (valueMatches (Conflict.trait1Id conflict)
                            (Conflict.trait1ValueId conflict) traitValuePairs)
      then ret traitValuePairs
      else if negb (valueMatches (Conflict.trait2Id conflict)
                                 (Conflict.trait2ValueId conflict) traitValuePairs)
      then ret traitValuePairs
      else
        match Conflict.resolutionType conflict with
        | Trait1None => ret (setTraitValue trait1Index None traitValuePairs)
        | Trait2None => ret (setTraitValue trait2Index None traitValuePairs)
        | Trait1Random =>
            let* values := lookupValues traitValuesDict (pairTraitId pair1) in
            let* newRandomValue1 :=
              randomValue env values
                (Trait.isAlwaysUnique (TraitValuePair.trait pair1))
                (pairValueId pair1) in
            ret (setTraitValue trait1Index newRandomValue1 traitValuePairs)
        | Trait2Random =>
            let* values := lookupValues traitValuesDict (pairTraitId pair2) in
            let* newRandomValue2 :=
              randomValue env values
                (Trait.isAlwaysUnique (TraitValuePair.trait pair2))
                (pairValueId pair2) in
            ret (setTraitValue trait2Index newRandomValue2 traitValuePairs)
        end
  end
  end.

Fixpoint resolveConflicts (env : Env.t) (traitValuePairs : list TraitValuePair.t)
  (conflicts : list Conflict.t) (traitValuesDict : TraitValuesDict)
  : M (list TraitValuePair.t) :=
  match conflicts with
  | [] => ret traitValuePairs
  | conflict :: rest =>
      let* traitValuePairs :=
        resolveConflict env traitValuesDict traitValuePairs conflict in
      resolveConflicts env traitValuePairs rest traitValuesDict
  end.

(** ** Always-unique depletion *)

(** [values.splice(index, 1)] *)
Definition splice1 {A} (index : nat) (values : list A) : list A :=
  delete index values.

(** The body of the [for] loop of [removeUsedAlwaysUniqueTraitValues] for
    one trait. [values.findIndex] on a missing entry throws. *)
Definition removeUsedOfTrait (trait : Trait.t) (traitValues : TraitValuesDict)
  (composite : ImageComposite.t) : Outcome TraitValuesDict :=
  if Trait.isAlwaysUnique trait then
    match traitValues !! Trait.id trait with
    | None => Throws
    | Some values =>
        let compositeTraitPair :=
          snd <$> list_find (fun traitPair => pairTraitId traitPair = Trait.id trait)
                            (ImageComposite.traits composite) in
        let compositeValue :=
          compositeTraitPair ≫= TraitValuePair.traitValue in
        match list_find
                (fun value => Some (TraitValue.id value) = TraitValue.id <$> compositeValue)
                values with
        | Some (matchingValueIndex, _) =>
            Returns (<[Trait.id trait := splice1 matchingValueIndex values]> traitValues)
        | None => Returns traitValues
        end
    end
  else Returns traitValues.

Fixpoint removeUsedAlwaysUniqueTraitValues (traits : list Trait.t)
  (traitValues : TraitValuesDict) (composite : ImageComposite.t)
  : Outcome TraitValuesDict :=
  match traits with
  | [] => Returns traitValues
  | trait :: rest =>
      match removeUsedOfTrait trait traitValues composite with
      | Returns traitValues =>
          removeUsedAlwaysUniqueTraitValues rest traitValues composite
      | Throws => Throws
      end
  end.

(** ** LayerCompositionPlanner *)

(** [Array.prototype.sort] with the comparator on a z-index: a stable sort,
    ascending. An element is inserted in front of the first one that is not
    below it, so equal keys keep their order. *)
Fixpoint insertByZ {A} (z : A -> Z) (x : A) (sorted : list A) : list A :=
  match sorted with
  | [] => [x]
  | y :: rest =>
      if Z.leb (z x) (z y) then x :: y :: rest
      else y :: insertByZ z x rest
  end.

Definition sortByZ {A} (z : A -> Z) (l : list A) : list A :=
  foldr (insertByZ z) [] l.

Definition sortTraitValuePairs (traitValuePairs : list TraitValuePair.t)
  : list TraitValuePair.t :=
  sortByZ (fun pair => Trait.zIndex (TraitValuePair.trait pair)) traitValuePairs.

(** What the [forEach] callback of [sortedImageLayersInjectingCompanions]
    pushes for one pair. *)
Definition emitForPair (imageLayers : list ImageLayer.t) (pair : TraitValuePair.t)
  : list OrderedImageLayer.t :=
  match TraitValuePair.imageLayer pair with
  | None => []
  | Some layer =>
      OrderedImageLayer.mk layer (Trait.zIndex (TraitValuePair.trait pair)) ::
      match ImageLayer.companionLayerId layer, ImageLayer.companionLayerZIndex layer with
      | Some companionId, Some companionZIndex =>
          match list_find (fun imageLayer => ImageLayer.id imageLayer = companionId)
                          imageLayers with
          | Some (_, companionImageLayer) =>
              [OrderedImageLayer.mk companionImageLayer companionZIndex]
          | None => []
          end
      | _, _ => []
      end
  end.

(** [imageLayerPairs] after the [forEach]. *)
Definition emittedImageLayers (sortedTraitValueImagePairs : list TraitValuePair.t)
  (imageLayers : list ImageLayer.t) : list OrderedImageLayer.t :=
  concat (map (emitForPair imageLayers) sortedTraitValueImagePairs).

Definition sortedImageLayersInjectingCompanions
  (sortedTraitValueImagePairs : list TraitValuePair.t)
  (imageLayers : list ImageLayer.t) : list ImageLayer.t :=
  let imageLayerPairs := emittedImageLayers sortedTraitValueImagePairs imageLayers in
  let orderedImageLayerPairs := sortByZ OrderedImageLayer.zIndex imageLayerPairs in
  map OrderedImageLayer.imageLayer orderedImageLayerPairs.

(** ** UniquenessRegistry ([ImageComposites] of models/models.ts) *)

(** Modelled from the spec: [ImageComposites.traitsHash], whose source is
    not part of the generator. The spec asks for a canonical encoding of the
    (traitId, traitValueId|null) pairs that does not depend on their order:
    the finite map from each trait id to the value id it carries. *)
Definition traitsHash (traitValuePairs : list TraitValuePair.t) : Hash :=
  list_to_map (map (fun pair => (pairTraitId pair, pairValueId pair)) traitValuePairs).

(** Modelled from the spec: [ImageComposites.isUniqueTraitsHash]; a hash is
    unused when no composite persisted in the run scope carries it.
    [persisted] is the content of the store for that scope. *)
Definition isUniqueTraitsHash (hash : Hash) (persisted : list ImageComposite.t) : bool :=
  bool_decide (hash ∉ map ImageComposite.traitsHash persisted).

(** Modelled from the spec: [ImageComposites.create]; the composite is added
    to the store of the run scope and handed back. *)
Definition create (compositeData : ImageComposite.t) (persisted : list ImageComposite.t)
  : ImageComposite.t * list ImageComposite.t :=
  (compositeData, persisted ++ [compositeData]).

(** ** The generator *)

Module ArtworkGenerator.
Record t := mk {
  projectId : string;
  collectionId : string;
  compositeGroupId : string;
  traitSetId : option string;
  startIndex : Z;
  endIndex : Z;
  batchSize : Z;
  isFirstBatchInTraitSet : bool
}.
End ArtworkGenerator.

(** The constructor: a trait set id of ["-1"] stands for none. *)
Definition newArtworkGenerator (projectId collectionId compositeGroupId traitSetId : string)
  (startIndex endIndex batchSize : Z) (isFirstBatchInTraitSet : bool)
  : ArtworkGenerator.t :=
  ArtworkGenerator.mk projectId collectionId compositeGroupId
    (if bool_decide (traitSetId = "-1") then None else Some traitSetId)
    startIndex endIndex batchSize isFirstBatchInTraitSet.

(** [path.join] on segments that need no normalisation. *)
Definition pathJoin (a b : string) : string := a +:+ "/" +:+ b.

Definition projectDownloadPath (this : ArtworkGenerator.t) (env : Env.t) : string :=
  pathJoin (pathJoin (Env.tmpdir env) "treattoolbox") (ArtworkGenerator.projectId this).

Definition layerDownloadPath (this : ArtworkGenerator.t) (env : Env.t) : string :=
  pathJoin (projectDownloadPath this env) "layered-images".

Definition downloadPathForImageLayer (this : ArtworkGenerator.t) (env : Env.t)
  (imageLayer : ImageLayer.t) : string :=
  pathJoin (layerDownloadPath this env) (ImageLayer.id imageLayer +:+ ".png").

(** A string is truthy when it is not empty. *)
Definition truthy (s : string) : bool := negb (bool_decide (s = "")).

(** [compositeImages]. With a single input the promise of sharp is handed
    back as it is, so a failure rejects; with several inputs a failure is
    caught and turned into [false]. *)
Definition compositeImages (env : Env.t) (optInputFilePaths : list (option string))
  (outputFilePath : string) : Outcome bool :=
  let inputFilePaths := filter (fun f => truthy f = true) (omap (fun f => f) optInputFilePaths) in
  match inputFilePaths with
  | [] => Returns false
  | [firstPath] =>
      if Env.sharp env [firstPath] outputFilePath then Returns true else Throws
  | firstPath :: inputs =>
      Returns (Env.sharp env (firstPath :: inputs) outputFilePath)
  end.

Definition liftOutcome {A} (o : Outcome A) : M A :=
  fun tick => match o with Returns a => Returns (a, tick) | Throws => Throws end.

Definition numRetries : nat := 20.

(** The [while (!hasUnusedTraitValuePair)] loop of [generateArtworkForItem].
    An iteration is entered with [retriesRemaining = S retriesAfter]; it
    returns the pairs of its last draw and [failedToFindUnusedTraitPair]. *)
Fixpoint drawUnusedPairs (env : Env.t) (traits : list Trait.t)
  (traitValues : TraitValuesDict) (persisted : list ImageComposite.t)
  (retriesAfter : nat) : M (list TraitValuePair.t * bool) :=
  let* traitValuePairs := randomTraitValues env traits traitValues in
  let hash := traitsHash traitValuePairs in
  let hasUnusedTraitValuePair := isUniqueTraitsHash hash persisted in
  match retriesAfter with
  | O => ret (traitValuePairs, true)
  | S retriesAfter =>
      if hasUnusedTraitValuePair then ret (traitValuePairs, false)
      else drawUnusedPairs env traits traitValues persisted retriesAfter
  end.

(** The callback that attaches its image layer to a pair. *)
Definition attachImageLayer (traitValueIdToImageLayers : gmap string ImageLayer.t)
  (traitValuePair : TraitValuePair.t) : TraitValuePair.t :=
  let imageLayer :=
    match pairValueId traitValuePair with
    | Some traitValueId =>
        if truthy traitValueId then traitValueIdToImageLayers !! traitValueId else None
    | None => None
    end in
  TraitValuePair.mk (TraitValuePair.trait traitValuePair)
    (TraitValuePair.traitValue traitValuePair) imageLayer.

Definition generateArtworkForItem (this : ArtworkGenerator.t) (env : Env.t)
  (itemIndex : Z) (collection : Collection.t) (traits : list Trait.t)
  (traitValues : TraitValuesDict)
  (traitValueIdToImageLayers : gmap string ImageLayer.t)
  (imageLayers : list ImageLayer.t) (conflicts : list Conflict.t)
  (projectDownloadPath : string) (persisted : list ImageComposite.t)
  : M (option ImageComposite.t) :=
  let* (traitValuePairs, failedToFindUnusedTraitPair) :=
    drawUnusedPairs env traits traitValues persisted (Nat.pred numRetries) in
  if failedToFindUnusedTraitPair : bool then ret None
  else
    let* traitValuePairs := resolveConflicts env traitValuePairs conflicts traitValues in
    let traitValueImagePairs :=
      map (attachImageLayer traitValueIdToImageLayers) traitValuePairs in
    let sortedTraitValueImagePairs := sortTraitValuePairs traitValueImagePairs in
    let sortedImageLayers :=
      sortedImageLayersInjectingCompanions sortedTraitValueImagePairs imageLayers in
    let inputFilePaths :=
      map (fun imageLayer => Some (downloadPathForImageLayer this env imageLayer))
          sortedImageLayers in
    let outputFilePath := pathJoin projectDownloadPath (pretty itemIndex +:+ ".png") in
    let* succeeded := liftOutcome (compositeImages env inputFilePaths outputFilePath) in
    if succeeded : bool then
      let uploadFilePath :=
        ArtworkGenerator.projectId this +:+ "/" +:+ Collection.id collection +:+
        "/generated/" +:+ ArtworkGenerator.compositeGroupId this +:+ "/" +:+
        pretty itemIndex +:+ ".png" in
      let downloadURL := Env.upload env uploadFilePath in
      ret (Some (ImageComposite.mk downloadURL sortedTraitValueImagePairs
                   (traitsHash sortedTraitValueImagePairs)))
    else ret None.

(** ** BatchOrchestrator *)

(** What the readers of the store hand to one batch: the documents that
    match the scope of the run. *)
Module Database.
Record t := mk {
  collection : Collection.t;
  traits : list Trait.t;
  imageLayers : list ImageLayer.t;
  conflicts : list Conflict.t;
  (** [TraitValues.all] for a trait, given the value ids that have images *)
  traitValues : Trait.t -> gset string -> list TraitValue.t;
  (** the composites already persisted in the run scope *)
  composites : list ImageComposite.t
}.
End Database.

(** The dictionary filled by [imageLayers.forEach]. *)
Definition indexImageLayers (imageLayers : list ImageLayer.t)
  : gmap string ImageLayer.t :=
  fold_left
    (fun dict imageLayer =>
       match ImageLayer.traitValueId imageLayer with
       | Some traitValueId =>
           if truthy traitValueId then <[traitValueId := imageLayer]> dict else dict
       | None => dict
       end)
    imageLayers ∅.

(** The prefetch loop: [traitValues[trait.id] = await TraitValues.all(...)]. *)
Definition prefetchTraitValues (db : Database.t) (traits : list Trait.t)
  (valuesWithImagesInTraitSet : gset string) : TraitValuesDict :=
  fold_left
    (fun dict trait =>
       <[Trait.id trait := Database.traitValues db trait valuesWithImagesInTraitSet]> dict)
    traits ∅.

(** The variables of the [while] loop of [generate], with the store and the
    tick. *)
Module Loop.
Record t := mk {
  i : Z;
  composites : list (option ImageComposite.t);
  traitValues : TraitValuesDict;
  persisted : list ImageComposite.t;
  tick : nat
}.
End Loop.

Section Batch.
Context (this : ArtworkGenerator.t) (env : Env.t) (db : Database.t).

Definition generatorTraits : list Trait.t := Database.traits db.
Definition generatorLayerIndex : gmap string ImageLayer.t :=
  indexImageLayers (Database.imageLayers db).

(** One pass through the body of the [while] loop. *)
Definition loopBody (s : Loop.t) : Outcome Loop.t :=
  match generateArtworkForItem this env (Loop.i s) (Database.collection db)
          generatorTraits (Loop.traitValues s) generatorLayerIndex
          (Database.imageLayers db) (Database.conflicts db)
          (projectDownloadPath this env) (Loop.persisted s) (Loop.tick s) with
  | Throws => Throws
  | Returns (None, tick) =>
      (* [continue]: the index stays as it is *)
      Returns (Loop.mk (Loop.i s) (Loop.composites s) (Loop.traitValues s)
                 (Loop.persisted s) tick)
  | Returns (Some compositeData, tick) =>
      let '(composite, persisted) := create compositeData (Loop.persisted s) in
      match removeUsedAlwaysUniqueTraitValues generatorTraits (Loop.traitValues s)
              composite with
      | Throws => Throws
      | Returns traitValues =>
          Returns (Loop.mk (Loop.i s + 1) (Loop.composites s ++ [Some composite])
                     traitValues persisted tick)
      end
  end.

(** The [while (i < this.endIndex)] loop; [None] when the fuel runs out
    before the loop is left. *)
Fixpoint whileLoop (fuel : nat) (s : Loop.t)
  : option (Outcome (list (option ImageComposite.t))) :=
  if Z.ltb (Loop.i s) (ArtworkGenerator.endIndex this) then
    match fuel with
    | O => None
    | S fuel =>
        match loopBody s with
        | Returns s => whileLoop fuel s
        | Throws => Some Throws
        end
    end
  else Some (Returns (Loop.composites s)).

(** The state in which the loop is entered. *)
Definition initialLoop (tick : nat) : Loop.t :=
  let valuesWithImagesInTraitSet := dom generatorLayerIndex in
  Loop.mk (ArtworkGenerator.startIndex this) []
    (prefetchTraitValues db generatorTraits valuesWithImagesInTraitSet)
    (Database.composites db) tick.

(** [generate]. The staging directories, the downloads and the cleanup
    change no value the loop reads and are left out. *)
Definition generate (fuel : nat) (tick : nat)
  : option (Outcome (list (option ImageComposite.t))) :=
  let traits := generatorTraits in
  let imageLayers := Database.imageLayers db in
  let s := initialLoop tick in
  if Nat.eqb (length traits) 0 then Some (Returns [])
  else if Nat.eqb (size (Loop.traitValues s)) 0 then Some (Returns [])
  else if Nat.eqb (length imageLayers) 0 then Some (Returns [])
  else whileLoop fuel s.

(** The states in which the test of the [while] loop is evaluated. *)
Inductive reachable (tick : nat) : Loop.t -> Prop :=
| reachable_init : reachable tick (initialLoop tick)
| reachable_step s s' :
    reachable tick s ->
    (Loop.i s < ArtworkGenerator.endIndex this)%Z ->
    loopBody s = Returns s' ->
    reachable tick s'.

End Batch.

(** ** Notions used by the statements *)

(** The sum of the rarities of the first [k + 1] values, added from the
    left starting at [from]. *)
Definition cumulativeFrom (from : Q) (values : list TraitValue.t) (k : nat) : Q :=
  fold_left Qplus (map TraitValue.rarity (take (S k) values)) from.


(** The random fraction and the value that the weighted walk picks at the
    request numbered [tick]. *)
Definition fractionAt (env : Env.t) (tick : nat) : Q :=
  Qdiv (inject_Z (Env.csprng env tick)) (inject_Z 10000).

Definition drawAt (env : Env.t) (values : list TraitValue.t) (tick : nat)
  : option TraitValue.t :=
  walkSegments values (fractionAt env tick) 0%Q.

(** A list is ascending for a key when no element stands before one of a
    smaller key. *)
Definition ascending {A} (z : A -> Z) (l : list A) : Prop :=
  forall i j x y, l !! i = Some x -> l !! j = Some y -> (i < j)%nat -> z x <= z y.





(** The entries of a result sequence that are not null. *)
Definition created (composites : list (option ImageComposite.t))
  : list ImageComposite.t :=
  omap (fun composite => composite) composites.

(** The call of [generateArtworkForItem] that the body of the loop makes in
    a state. *)
Definition itemAt (this : ArtworkGenerator.t) (env : Env.t) (db : Database.t)
  (s : Loop.t) : M (option ImageComposite.t) :=
  generateArtworkForItem this env (Loop.i s) (Database.collection db)
    (generatorTraits db) (Loop.traitValues s) (generatorLayerIndex db)
    (Database.imageLayers db) (Database.conflicts db)
    (projectDownloadPath this env) (Loop.persisted s).

(** A pair carries no value or a value of the pool of its trait. *)
Definition drawnFrom (traitValues : TraitValuesDict) (pair : TraitValuePair.t) : Prop :=
  forall value, TraitValuePair.traitValue pair = Some value ->
    exists values, traitValues !! pairTraitId pair = Some values /\ value ∈ values.



(** ** Scenarios *)

Module Scenario.

(** An environment whose random sources are constant, whose renderer
    succeeds and whose uploads succeed. *)
Definition constantEnv (random : Z) : Env.t :=
  Env.mk (fun _ => 0%Q) (fun _ => random) (fun _ _ => true)
         (fun path => Some path) "/tmp".

Definition background : Trait.t := Trait.mk "background" "Background" 0 false.
Definition red : TraitValue.t := TraitValue.mk "red" "Red" 1%Q.
Definition redLayer : ImageLayer.t :=
  ImageLayer.mk "layer-red" (Some "red") "red.png" None None.

(** One trait with the single value Red of rarity 1, no conflict, a supply
    of three. *)
Definition singleValueDb : Database.t :=
  Database.mk (Collection.mk "collection" 3) [background] [redLayer] []
              (fun _ _ => [red]) [].

Definition batch (startIndex endIndex : Z) : ArtworkGenerator.t :=
  newArtworkGenerator "project" "collection" "group" "-1"
    startIndex endIndex (endIndex - startIndex) true.

(** The composite of the single-value scenario for the item [0]. *)
Definition redPair : TraitValuePair.t :=
  TraitValuePair.mk background (Some red) (Some redLayer).

Definition redComposite : ImageComposite.t :=
  ImageComposite.mk (Some "project/collection/generated/group/0.png")
    [redPair] (traitsHash [redPair]).

(** The state of the loop once the item [0] is made. *)
Definition afterFirstItem (tick : nat) : Loop.t :=
  Loop.mk 1 [Some redComposite] {["background" := [red]]} [redComposite] tick.

(** Two values of rarity one half, a store that already holds Red, and a
    random source that gives Red nineteen times and Blue after that. *)
Definition halfRed : TraitValue.t := TraitValue.mk "red" "Red" (1 # 2)%Q.
Definition halfBlue : TraitValue.t := TraitValue.mk "blue" "Blue" (1 # 2)%Q.

Definition lateBlueEnv : Env.t :=
  Env.mk (fun _ => 0%Q) (fun tick => if Nat.ltb tick 19 then 0 else 9000)
         (fun _ _ => true) (fun path => Some path) "/tmp".

Definition twoValues : TraitValuesDict := {["background" := [halfRed; halfBlue]]}.

Definition halfRedPair : TraitValuePair.t :=
  TraitValuePair.mk background (Some halfRed) (Some redLayer).

Definition persistedRed : list ImageComposite.t :=
  [ImageComposite.mk None [halfRedPair] (traitsHash [halfRedPair])].

Definition blueDraw : list TraitValuePair.t :=
  [TraitValuePair.mk background (Some halfBlue) None].

(** An always-unique trait with a pool of one value, in conflict with the
    background; the conflict re-draws the always-unique trait. *)
Definition hat : Trait.t := Trait.mk "hat" "Hat" 1 true.
Definition crown : TraitValue.t := TraitValue.mk "crown" "Crown" (-1)%Q.

Definition hatPools : TraitValuesDict :=
  {["hat" := [crown]; "background" := [red]]}.

Definition crownOnRed : list TraitValuePair.t :=
  [TraitValuePair.mk hat (Some crown) None;
   TraitValuePair.mk background (Some red) None].

Definition rerollHat : Conflict.t :=
  Conflict.mk "hat" (Some "crown") "background" (Some "red") Trait1Random.

(** A scope whose only trait is the always-unique hat, and the state of
    the loop once the crown is used. *)
Definition crownLayer : ImageLayer.t :=
  ImageLayer.mk "layer-crown" (Some "crown") "crown.png" None None.

Definition hatDb : Database.t :=
  Database.mk (Collection.mk "collection" 2) [hat] [crownLayer] []
              (fun _ _ => [crown]) [].

Definition crownedPairs : list TraitValuePair.t :=
  [TraitValuePair.mk hat (Some crown) (Some crownLayer)].

Definition crowned : ImageComposite.t :=
  ImageComposite.mk (Some "project/collection/generated/group/0.png")
    crownedPairs (traitsHash crownedPairs).

Definition afterCrown : Loop.t :=
  Loop.mk 1 [Some crowned] {["hat" := []]} [crowned] 1.

(** A trait without any value, next to an image layer. *)
Definition noValuesDb : Database.t :=
  Database.mk (Collection.mk "collection" 1) [background] [redLayer] []
              (fun _ _ => []) [].

Definition noValuesLoop (tick : nat) : Loop.t :=
  Loop.mk 0 [] {["background" := []]} [] tick.

(** Two traits with one value each and a conflict that drops the first
    whenever the second is drawn. *)
Definition eyes : Trait.t := Trait.mk "eyes" "Eyes" 1 false.
Definition mouth : Trait.t := Trait.mk "mouth" "Mouth" 2 false.
Definition laser : TraitValue.t := TraitValue.mk "laser" "Laser" 1%Q.
Definition smile : TraitValue.t := TraitValue.mk "smile" "Smile" 1%Q.
Definition laserLayer : ImageLayer.t :=
  ImageLayer.mk "layer-laser" (Some "laser") "laser.png" None None.
Definition smileLayer : ImageLayer.t :=
  ImageLayer.mk "layer-smile" (Some "smile") "smile.png" None None.

Definition dropEyes : Conflict.t :=
  Conflict.mk "eyes" None "mouth" (Some "smile") Trait1None.

Definition conflictDb : Database.t :=
  Database.mk (Collection.mk "collection" 2) [eyes; mouth]
              [laserLayer; smileLayer] [dropEyes]
              (fun trait _ =>
                 if bool_decide (Trait.id trait = "eyes") then [laser] else [smile])
              [].

Definition laserSmile : list TraitValuePair.t :=
  [TraitValuePair.mk eyes (Some laser) None;
   TraitValuePair.mk mouth (Some smile) None].

(** What that scenario persists for an item: the eyes are dropped. *)
Definition smilingPairs : list TraitValuePair.t :=
  [TraitValuePair.mk eyes None None;
   TraitValuePair.mk mouth (Some smile) (Some smileLayer)].

Definition smiling (url : string) : ImageComposite.t :=
  ImageComposite.mk (Some url) smilingPairs (traitsHash smilingPairs).

Definition smiling0 : ImageComposite.t := smiling "project/collection/generated/group/0.png".
Definition smiling1 : ImageComposite.t := smiling "project/collection/generated/group/1.png".

Definition conflictPools : TraitValuesDict :=
  {["eyes" := [laser]; "mouth" := [smile]]}.

Definition afterSmiling0 : Loop.t :=
  Loop.mk 1 [Some smiling0] conflictPools [smiling0] 2.

Definition afterSmiling1 : Loop.t :=
  Loop.mk 2 [Some smiling0; Some smiling1] conflictPools [smiling0; smiling1] 4.

(** A layer with a companion, for the planner. *)
Definition body : Trait.t := Trait.mk "body" "Body" 3 false.
Definition shadowLayer : ImageLayer.t :=
  ImageLayer.mk "layer-shadow" None "shadow.png" None None.
Definition robeLayer : ImageLayer.t :=
  ImageLayer.mk "layer-robe" (Some "robe") "robe.png" (Some "layer-shadow") (Some 7).
Definition robe : TraitValue.t := TraitValue.mk "robe" "Robe" 1%Q.
Definition robePair : TraitValuePair.t :=
  TraitValuePair.mk body (Some robe) (Some robeLayer).

Definition halo : Trait.t := Trait.mk "halo" "Halo" 5 false.
Definition glow : TraitValue.t := TraitValue.mk "glow" "Glow" 1%Q.
Definition glowLayer : ImageLayer.t :=
  ImageLayer.mk "layer-glow" (Some "glow") "glow.png" None None.
Definition glowPair : TraitValuePair.t :=
  TraitValuePair.mk halo (Some glow) (Some glowLayer).

End Scenario.


(** How a pair after conflict resolution relates to the pair that stood at
    its place before: same trait and image layer, and a value that is the
    former one, or none, or a value of the pool of the trait. *)
Definition resolvedFrom (traitValuesDict : TraitValuesDict)
  (before after : TraitValuePair.t) : Prop :=
  TraitValuePair.trait after = TraitValuePair.trait before /\
  TraitValuePair.imageLayer after = TraitValuePair.imageLayer before /\
  (TraitValuePair.traitValue after = TraitValuePair.traitValue before \/
   TraitValuePair.traitValue after = None \/
   exists values value,
     traitValuesDict !! pairTraitId before = Some values /\
     value ∈ values /\
     TraitValuePair.traitValue after = Some value).

(** ** Inputs for the further properties *)

Module Sample.

(** An environment with a fixed [Math.random()] and a fixed csprng. *)
Definition env (fraction : Q) (random : Z) : Env.t :=
  Env.mk (fun _ => fraction) (fun _ => random) (fun _ _ => true)
         (fun path => Some path) "/tmp".


Definition first : TraitValue.t := TraitValue.mk "first" "First" (-1)%Q.
Definition second : TraitValue.t := TraitValue.mk "second" "Second" (-1)%Q.

End Sample.
(** * Properties *)

(** ** The weighted walk *)

Lemma walkSegments_Some values r from value :
  walkSegments values r from = Some value ->
  exists k : nat,
    values !! k = Some value /\
    (r <= cumulativeFrom from values k)%Q /\
    forall j : nat, (j < k)%nat -> ~ (r <= cumulativeFrom from values j)%Q.
Proof.
  revert from. induction values as [|v rest IH]; intros from Hwalk; [discriminate|].
  simpl in Hwalk.
  destruct (Qle_bool r (from + TraitValue.rarity v)) eqn:Hle.
  - injection Hwalk as <-. exists 0%nat. split; [reflexivity|]. split.
    + unfold cumulativeFrom. simpl. by apply Qle_bool_iff.
    + intros j Hj. lia.
  - destruct (IH _ Hwalk) as (k & Hk & Hreach & Hbelow).
    exists (S k). split; [exact Hk|]. split; [exact Hreach|].
    intros [|j] Hj.
    + unfold cumulativeFrom. simpl.
      intros Habs. apply Qle_bool_iff in Habs. congruence.
    + apply Hbelow. lia.
Qed.


Lemma walkSegments_elem values r from value :
  walkSegments values r from = Some value -> value ∈ values.
Proof.
  intros H. apply walkSegments_Some in H as (k & Hk & _).
  by eapply list_elem_of_lookup_2.
Qed.

Lemma randomValue_unexcluded env values tick :
  randomValue env values false None tick = Returns (drawAt env values tick, S tick).
Proof.
  unfold randomValue, maxAttempts. simpl. unfold bind, randomNumber. simpl.
  unfold isExcluded. reflexivity.
Qed.


(** ** The retry budget of the sampler *)

Lemma randomValueLoop_step env values exclude attemptsLeft tick :
  randomValueLoop env values exclude (S attemptsLeft) tick =
  if isExcluded exclude (drawAt env values tick)
  then randomValueLoop env values exclude attemptsLeft (S tick)
  else Returns (drawAt env values tick, S tick).
Proof.
  change (randomValueLoop env values exclude (S attemptsLeft) tick)
    with ((if isExcluded exclude (drawAt env values tick)
           then randomValueLoop env values exclude attemptsLeft
           else ret (drawAt env values tick)) (S tick)).
  by destruct (isExcluded exclude (drawAt env values tick)).
Qed.

Lemma drawAt_singleton env only tick :
  drawAt env [only] tick = Some only \/ drawAt env [only] tick = None.
Proof.
  unfold drawAt. simpl.
  destruct (Qle_bool _ _); [by left | by right].
Qed.

Lemma randomValueLoop_budget env values ex attemptsLeft tick :
  exists (result : option TraitValue.t) (attempts : nat),
    randomValueLoop env values (Some ex) attemptsLeft tick
      = Returns (result, (tick + attempts)%nat) /\
    (attempts <= attemptsLeft)%nat /\
    ((0 < attemptsLeft)%nat -> (1 <= attempts)%nat) /\
    (forall value, result = Some value -> TraitValue.id value <> ex) /\
    ((forall k : nat, (k < attemptsLeft)%nat ->
        isExcluded (Some ex) (drawAt env values (tick + k)) = true) ->
     result = None /\ attempts = attemptsLeft) /\
    (forall only, values = [only] -> TraitValue.id only = ex -> result = None).
Proof.
  revert tick. induction attemptsLeft as [|n IH]; intros tick.
  - exists None, 0%nat. simpl. unfold ret. rewrite Nat.add_0_r.
    repeat split; try done; lia.
  - rewrite randomValueLoop_step.
    destruct (isExcluded (Some ex) (drawAt env values tick)) eqn:Hex.
    + destruct (IH (S tick)) as (result & attempts & Hrun & Hle & _ & Hne & Hall & Hone).
      exists result, (S attempts). rewrite Hrun.
      replace (S tick + attempts)%nat with (tick + S attempts)%nat by lia.
      split; [done|]. split; [lia|]. split; [lia|]. split; [done|]. split; [|done].
      intros Hk. destruct Hall as [-> ->]; [|done].
      intros k Hlt. replace (S tick + k)%nat with (tick + S k)%nat by lia.
      apply Hk. lia.
    + exists (drawAt env values tick), 1%nat.
      replace (tick + 1)%nat with (S tick) by lia.
      split; [done|]. split; [lia|]. split; [lia|]. split; [|split].
      * intros value Hv Hid. rewrite Hv in Hex. simpl in Hex.
        by rewrite bool_decide_eq_false in Hex.
      * intros Hk. specialize (Hk 0%nat). rewrite Nat.add_0_r in Hk.
        rewrite Hk in Hex; [done | lia].
      * intros only -> Hid.
        destruct (drawAt_singleton env only tick) as [Hd|Hd]; [|done].
        rewrite Hd in Hex. simpl in Hex.
        by rewrite bool_decide_eq_false in Hex.
Qed.

(** C9. On a trait that is not always unique and with an excluded value
    id, [randomValue] returns after at least one and at most ten requests
    for a random number; the value it returns is never the excluded one;
    when each of the ten draws gives the excluded value it returns null
    after the tenth; and on a singleton list whose only value is the
    excluded one it returns null. *)
Theorem randomValue_exclusion_budget (env : Env.t) (values : list TraitValue.t)
  (excludeTraitValueId : string) (tick : nat) :
  exists (result : option TraitValue.t) (attempts : nat),
    randomValue env values false (Some excludeTraitValueId) tick
      = Returns (result, (tick + attempts)%nat) /\
    (1 <= attempts <= 10)%nat /\
    (forall value, result = Some value -> TraitValue.id value <> excludeTraitValueId) /\
    ((forall k : nat, (k < 10)%nat ->
        isExcluded (Some excludeTraitValueId) (drawAt env values (tick + k)) = true) ->
     result = None /\ attempts = 10%nat) /\
    (forall only, values = [only] -> TraitValue.id only = excludeTraitValueId ->
                  result = None).
Proof.
  destruct (randomValueLoop_budget env values excludeTraitValueId maxAttempts tick)
    as (result & attempts & Hrun & Hle & Hpos & Hne & Hall & Hone).
  exists result, attempts. unfold randomValue.
  split; [exact Hrun|]. unfold maxAttempts in *.
  split; [lia|]. split; [exact Hne|]. split; [exact Hall | exact Hone].
Qed.

(** ** Conflict resolution *)

Lemma resolveConflicts_single env pairs conflict dict tick :
  resolveConflicts env pairs [conflict] dict tick
  = resolveConflict env dict pairs conflict tick.
Proof.
  simpl. unfold bind.
  destruct (resolveConflict env dict pairs conflict tick) as [[resolved tick']|]; done.
Qed.

(** In a draw with one pair per trait, the position of a trait id is
    unique. *)
Lemma pairTraitId_position (pairs : list TraitValuePair.t) i j p q :
  NoDup (map pairTraitId pairs) ->
  pairs !! i = Some p -> pairs !! j = Some q ->
  pairTraitId p = pairTraitId q -> i = j.
Proof.
  intros Hnd Hi Hj Heq.
  apply (NoDup_lookup (map pairTraitId pairs) i j (pairTraitId p) Hnd).
  - change (map pairTraitId pairs) with (pairTraitId <$> pairs).
    by rewrite list_lookup_fmap, Hi.
  - change (map pairTraitId pairs) with (pairTraitId <$> pairs).
    by rewrite list_lookup_fmap, Hj, Heq.
Qed.

Lemma setTraitValue_traits index value (pairs : list TraitValuePair.t) :
  map TraitValuePair.trait (setTraitValue index value pairs)
  = map TraitValuePair.trait pairs.
Proof.
  unfold setTraitValue.
  change (TraitValuePair.trait <$>
            alter (fun pair => TraitValuePair.mk (TraitValuePair.trait pair) value
                                 (TraitValuePair.imageLayer pair)) index pairs
          = TraitValuePair.trait <$> pairs).
  apply list_eq. intros j. rewrite !list_lookup_fmap.
  destruct (decide (index = j)) as [->|Hne].
  - rewrite list_lookup_alter_eq. by destruct (pairs !! j).
  - by rewrite list_lookup_alter_ne.
Qed.

Lemma valueMatches_intro traitId vid (pairs : list TraitValuePair.t) p :
  p ∈ pairs -> pairTraitId p = traitId -> pairValueId p = Some vid ->
  valueMatches traitId (Some vid) pairs = true.
Proof.
  intros Hin Ht Hv. unfold valueMatches. apply bool_decide_eq_true.
  by apply (list_find_elem_of _ _ p).
Qed.

Lemma valueMatches_absent traitId vid (pairs : list TraitValuePair.t) :
  (forall p, p ∈ pairs -> pairTraitId p = traitId -> pairValueId p <> Some vid) ->
  valueMatches traitId (Some vid) pairs = false.
Proof.
  intros Hno. unfold valueMatches. apply bool_decide_eq_false.
  intros [[k p] Hfind]. apply list_find_Some in Hfind as (Hk & [Ht Hv] & _).
  apply (Hno p); [by eapply list_elem_of_lookup_2 | done | done].
Qed.

(** C6. For a conflict of resolution DropFirst ([Trait1None]) between
    trait [a] with value [red] and trait [b] with value [green], and a draw
    with one pair per trait: when the draw holds [a = red] and [b = green],
    resolution leaves the pair of [a] without a value and every other pair
    as it was; when trait [a] or trait [b] is absent from the draw, or the
    pair of [b] does not carry [green], the conflict is skipped and the draw
    stays as it was. *)
Theorem dropFirst_resolution (env : Env.t) (traitValuesDict : TraitValuesDict)
  (traitValuePairs : list TraitValuePair.t) (a red b green : string) (tick : nat) :
  let conflict := Conflict.mk a (Some red) b (Some green) Trait1None in
  NoDup (map pairTraitId traitValuePairs) ->
  ((exists pa pb,
       pa ∈ traitValuePairs /\ pairTraitId pa = a /\ pairValueId pa = Some red /\
       pb ∈ traitValuePairs /\ pairTraitId pb = b /\ pairValueId pb = Some green) ->
   exists resolved,
     resolveConflicts env traitValuePairs [conflict] traitValuesDict tick
       = Returns (resolved, tick) /\
     map TraitValuePair.trait resolved = map TraitValuePair.trait traitValuePairs /\
     (forall p, p ∈ resolved -> pairTraitId p = a -> TraitValuePair.traitValue p = None) /\
     (forall i p, traitValuePairs !! i = Some p -> pairTraitId p <> a ->
                  resolved !! i = Some p))
  /\
  (((forall p, p ∈ traitValuePairs -> pairTraitId p <> a) \/
    (forall p, p ∈ traitValuePairs -> pairTraitId p <> b) \/
    (forall p, p ∈ traitValuePairs -> pairTraitId p = b -> pairValueId p <> Some green)) ->
   resolveConflicts env traitValuePairs [conflict] traitValuesDict tick
     = Returns (traitValuePairs, tick)).
Proof.
  intros conflict Hnd. split.
  - intros (pa & pb & Hpa & Hta & Hva & Hpb & Htb & Hvb).
    rewrite resolveConflicts_single. subst conflict. unfold resolveConflict.
    cbn [Conflict.trait1Id Conflict.trait2Id Conflict.trait1ValueId
         Conflict.trait2ValueId Conflict.resolutionType].
    destruct (list_find (fun pair => pairTraitId pair = a) traitValuePairs)
      as [[i p1]|] eqn:Hf1.
    2:{ apply list_find_None in Hf1. rewrite Forall_forall in Hf1.
        by destruct (Hf1 pa Hpa). }
    destruct (list_find (fun pair => pairTraitId pair = b) traitValuePairs)
      as [[i2 p2]|] eqn:Hf2.
    2:{ apply list_find_None in Hf2. rewrite Forall_forall in Hf2.
        by destruct (Hf2 pb Hpb). }
    rewrite (valueMatches_intro a red traitValuePairs pa Hpa Hta Hva).
    rewrite (valueMatches_intro b green traitValuePairs pb Hpb Htb Hvb).
    cbn [negb]. eexists. split; [reflexivity|].
    apply list_find_Some in Hf1 as (Hi & Hti & _).
    split; [apply setTraitValue_traits|]. split.
    + intros p Hin Htp. apply list_elem_of_lookup_1 in Hin as [j Hj].
      unfold setTraitValue in Hj.
      destruct (decide (i = j)) as [->|Hne].
      * rewrite list_lookup_alter_eq, Hi in Hj. simpl in Hj. by injection Hj as <-.
      * rewrite list_lookup_alter_ne in Hj by done.
        destruct Hne. eapply pairTraitId_position; eauto. congruence.
    + intros j p Hj Hne. unfold setTraitValue.
      rewrite list_lookup_alter_ne; [done|].
      intros <-. congruence.
  - intros Hskip. rewrite resolveConflicts_single. subst conflict. unfold resolveConflict.
    cbn [Conflict.trait1Id Conflict.trait2Id Conflict.trait1ValueId
         Conflict.trait2ValueId Conflict.resolutionType].
    destruct (list_find (fun pair => pairTraitId pair = a) traitValuePairs)
      as [[i p1]|] eqn:Hf1; [|done].
    destruct (list_find (fun pair => pairTraitId pair = b) traitValuePairs)
      as [[i2 p2]|] eqn:Hf2; [|done].
    apply list_find_Some in Hf1 as (Hi & Hti & _).
    apply list_find_Some in Hf2 as (Hi2 & Hti2 & _).
    destruct Hskip as [Hno|[Hno|Hno]].
    + destruct (Hno p1); [by eapply list_elem_of_lookup_2 | done].
    + destruct (Hno p2); [by eapply list_elem_of_lookup_2 | done].
    + rewrite (valueMatches_absent b green traitValuePairs Hno). cbn [negb].
      by destruct (valueMatches a (Some red) traitValuePairs).
Qed.

(** ** Layer ordering *)

Section SortByZ.
Context {A : Type} (z : A -> Z).

Lemma insertByZ_Permutation x (l : list A) : insertByZ z x l ≡ₚ x :: l.
Proof.
  induction l as [|y l IH]; simpl; [done|].
  destruct (Z.leb (z x) (z y)); [done|].
  rewrite IH. apply Permutation_swap.
Qed.

Lemma sortByZ_Permutation (l : list A) : sortByZ z l ≡ₚ l.
Proof.
  induction l as [|x l IH]; simpl; [done|].
  rewrite insertByZ_Permutation. by rewrite IH.
Qed.

Lemma ascending_cons x (l : list A) :
  (forall y, y ∈ l -> z x <= z y) -> ascending z l -> ascending z (x :: l).
Proof.
  intros Hx Hl [|i] [|j] a b Ha Hb Hij; try lia; simpl in *.
  - injection Ha as <-. apply Hx. by eapply list_elem_of_lookup_2.
  - eapply Hl; eauto. lia.
Qed.

Lemma ascending_tail x (l : list A) : ascending z (x :: l) -> ascending z l.
Proof. intros H i j a b Ha Hb Hij. apply (H (S i) (S j) a b); auto. lia. Qed.

Lemma ascending_head x (l : list A) y : ascending z (x :: l) -> y ∈ l -> z x <= z y.
Proof.
  intros H Hy. apply list_elem_of_lookup_1 in Hy as [j Hj].
  apply (H 0%nat (S j) x y); auto. lia.
Qed.

Lemma insertByZ_ascending x (l : list A) : ascending z l -> ascending z (insertByZ z x l).
Proof.
  induction l as [|y l IH]; intros Hl; simpl.
  - apply ascending_cons; [|done]. intros y Hy. by apply elem_of_nil in Hy.
  - destruct (Z.leb (z x) (z y)) eqn:Hle.
    + apply Z.leb_le in Hle. apply ascending_cons; [|done].
      intros w Hw. apply elem_of_cons in Hw as [->|Hw]; [done|].
      pose proof (ascending_head y l w Hl Hw). lia.
    + apply Z.leb_gt in Hle. apply ascending_cons.
      * intros w Hw. rewrite insertByZ_Permutation in Hw.
        apply elem_of_cons in Hw as [->|Hw]; [lia|].
        by apply (ascending_head y l).
      * apply IH. by eapply ascending_tail.
Qed.

Lemma sortByZ_ascending (l : list A) : ascending z (sortByZ z l).
Proof.
  induction l as [|x l IH]; simpl.
  - intros i j a b Ha. by rewrite lookup_nil in Ha.
  - by apply insertByZ_ascending.
Qed.

End SortByZ.

Lemma emitForPair_companion imageLayers pair layer companionId companionZIndex k companion :
  TraitValuePair.imageLayer pair = Some layer ->
  ImageLayer.companionLayerId layer = Some companionId ->
  ImageLayer.companionLayerZIndex layer = Some companionZIndex ->
  list_find (fun imageLayer => ImageLayer.id imageLayer = companionId) imageLayers
    = Some (k, companion) ->
  emitForPair imageLayers pair =
    [OrderedImageLayer.mk layer (Trait.zIndex (TraitValuePair.trait pair));
     OrderedImageLayer.mk companion companionZIndex].
Proof.
  intros Hl Hc Hz Hfind. unfold emitForPair. by rewrite Hl, Hc, Hz, Hfind.
Qed.

(** C8. When a selected layer [L] declares the companion id [C] and the
    companion z-index [z], and the catalog holds a layer of id [C], the
    planner emits that layer tagged with [z]; its output is the emitted
    entries, primaries and companions together, sorted ascending by their
    tags, so the companion stands where [z] puts it among all emitted
    entries. *)
Theorem companion_layer_position (sortedTraitValueImagePairs : list TraitValuePair.t)
  (imageLayers : list ImageLayer.t) (pair : TraitValuePair.t)
  (L companion : ImageLayer.t) (C : string) (z : Z) (k : nat) :
  pair ∈ sortedTraitValueImagePairs ->
  TraitValuePair.imageLayer pair = Some L ->
  ImageLayer.companionLayerId L = Some C ->
  ImageLayer.companionLayerZIndex L = Some z ->
  list_find (fun imageLayer => ImageLayer.id imageLayer = C) imageLayers
    = Some (k, companion) ->
  let emitted := emittedImageLayers sortedTraitValueImagePairs imageLayers in
  let ordered := sortByZ OrderedImageLayer.zIndex emitted in
  OrderedImageLayer.mk L (Trait.zIndex (TraitValuePair.trait pair)) ∈ emitted /\
  OrderedImageLayer.mk companion z ∈ emitted /\
  ordered ≡ₚ emitted /\
  ascending OrderedImageLayer.zIndex ordered /\
  sortedImageLayersInjectingCompanions sortedTraitValueImagePairs imageLayers
    = map OrderedImageLayer.imageLayer ordered /\
  exists pos : nat,
    ordered !! pos = Some (OrderedImageLayer.mk companion z) /\
    sortedImageLayersInjectingCompanions sortedTraitValueImagePairs imageLayers !! pos
      = Some companion /\
    (forall j e, ordered !! j = Some e ->
       ((j < pos)%nat -> OrderedImageLayer.zIndex e <= z) /\
       ((pos < j)%nat -> z <= OrderedImageLayer.zIndex e)).
Proof.
  intros Hin Hl Hc Hz Hfind emitted ordered.
  assert (Hemit : emitForPair imageLayers pair ⊆ emitted).
  { intros e He. unfold emitted, emittedImageLayers.
    apply list_elem_of_In, in_concat. exists (emitForPair imageLayers pair).
    split; [|by apply list_elem_of_In]. apply in_map. by apply list_elem_of_In. }
  rewrite (emitForPair_companion _ _ _ _ _ _ _ Hl Hc Hz Hfind) in Hemit.
  assert (Hperm : ordered ≡ₚ emitted) by apply sortByZ_Permutation.
  assert (Hasc : ascending OrderedImageLayer.zIndex ordered) by apply sortByZ_ascending.
  assert (Hcomp : OrderedImageLayer.mk companion z ∈ emitted).
  { apply Hemit. apply elem_of_cons. right. apply elem_of_cons. by left. }
  split; [apply Hemit; apply elem_of_cons; by left|].
  split; [done|]. split; [done|]. split; [done|]. split; [done|].
  assert (Hord : OrderedImageLayer.mk companion z ∈ ordered) by by rewrite Hperm.
  apply list_elem_of_lookup_1 in Hord as [pos Hpos].
  exists pos. split; [done|]. split.
  - unfold sortedImageLayersInjectingCompanions. fold emitted. fold ordered.
    change (map OrderedImageLayer.imageLayer ordered)
      with (OrderedImageLayer.imageLayer <$> ordered).
    by rewrite list_lookup_fmap, Hpos.
  - intros j e Hj. split; intros Hlt.
    + apply (Hasc j pos e _ Hj Hpos Hlt).
    + apply (Hasc pos j _ e Hpos Hj Hlt).
Qed.

(** ** The batch loop on the scenarios *)

Section WhileLoop.
Context (this : ArtworkGenerator.t) (env : Env.t) (db : Database.t).


Lemma whileLoop_step fuel s s' :
  Loop.i s < ArtworkGenerator.endIndex this ->
  loopBody this env db s = Returns s' ->
  whileLoop this env db (S fuel) s = whileLoop this env db fuel s'.
Proof.
  intros Hlt Hbody. simpl.
  by rewrite (proj2 (Z.ltb_lt _ _) Hlt), Hbody.
Qed.

Lemma whileLoop_out_of_fuel s :
  Loop.i s < ArtworkGenerator.endIndex this ->
  whileLoop this env db 0 s = None.
Proof. intros Hlt. simpl. by rewrite (proj2 (Z.ltb_lt _ _) Hlt). Qed.

(** A state that the body maps to itself, up to the tick, is never left. *)
Lemma whileLoop_stuck (stuck : nat -> Loop.t) (ticks : nat) :
  (forall tick, Loop.i (stuck tick) < ArtworkGenerator.endIndex this) ->
  (forall tick, loopBody this env db (stuck tick) = Returns (stuck (ticks + tick)%nat)) ->
  forall fuel tick, whileLoop this env db fuel (stuck tick) = None.
Proof.
  intros Hlt Hbody fuel. induction fuel as [|fuel IH]; intros tick.
  - by apply whileLoop_out_of_fuel.
  - rewrite (whileLoop_step fuel _ _ (Hlt tick) (Hbody tick)). apply IH.
Qed.

End WhileLoop.

Import Scenario.



Lemma noValuesLoop_body tick :
  loopBody (batch 0 1) (constantEnv 0) noValuesDb (noValuesLoop tick)
  = Returns (noValuesLoop (1 + tick)).
Proof. vm_compute. reflexivity. Qed.

(** C3. The twentieth draw finds a combination that the run has not used,
    and [generateArtworkForItem] abandons the item all the same: the test
    [retriesRemaining == 0] after the twentieth draw does not look at the
    outcome of that draw. *)
Theorem generateArtworkForItem_abandons_on_twentieth_success :
  (forall tick, (tick < 19)%nat ->
     exists draw,
       randomTraitValues lateBlueEnv [background] twoValues tick
         = Returns (draw, S tick) /\
       isUniqueTraitsHash (traitsHash draw) persistedRed = false) /\
  randomTraitValues lateBlueEnv [background] twoValues 19%nat
    = Returns (blueDraw, 20%nat) /\
  isUniqueTraitsHash (traitsHash blueDraw) persistedRed = true /\
  generateArtworkForItem (batch 1 2) lateBlueEnv 1 (Collection.mk "collection" 3)
    [background] twoValues (indexImageLayers [redLayer]) [redLayer] []
    (projectDownloadPath (batch 1 2) lateBlueEnv) persistedRed 0%nat
  = Returns (None, 20%nat).
Proof.
  split; [|split; [|split]]; [|vm_compute; reflexivity..].
  intros tick Hlt.
  exists [TraitValuePair.mk background (Some halfRed) None].
  do 19 (destruct tick as [|tick]; [vm_compute; split; reflexivity|]). lia.
Qed.

(** C7. On an always-unique trait the re-draw of a conflict gives back the
    value that was to be excluded: [randomValue] returns from its
    always-unique branch before it looks at [excludeTraitValueId]. *)
Theorem resolveConflicts_rerolls_excluded_value_of_always_unique :
  Trait.isAlwaysUnique hat = true /\
  resolveConflicts (constantEnv 0) crownOnRed [rerollHat] hatPools 0%nat
    = Returns (crownOnRed, 1%nat) /\
  randomValue (constantEnv 0) [crown] true (Some (TraitValue.id crown)) 0%nat
    = Returns (Some crown, 1%nat).
Proof. split; [|split]; vm_compute; reflexivity. Qed.

(** C10. Traits exist, every trait has an empty value list and the scope
    has an image layer: the guard on the trait values counts the entries of
    the dictionary, one per trait, so it does not fire, and [generate]
    enters the loop, where no item can be composited; it never returns. *)
Theorem generate_with_empty_value_lists_never_returns :
  Forall (fun trait => Database.traitValues noValuesDb trait
                         (dom (indexImageLayers (Database.imageLayers noValuesDb))) = [])
         (Database.traits noValuesDb) /\
  size (Loop.traitValues (initialLoop (batch 0 1) noValuesDb 0)) = 1%nat /\
  forall fuel, generate (batch 0 1) (constantEnv 0) noValuesDb fuel 0 = None.
Proof.
  split; [by repeat constructor|]. split; [by vm_compute|].
  intros fuel.
  change (generate (batch 0 1) (constantEnv 0) noValuesDb fuel 0)
    with (whileLoop (batch 0 1) (constantEnv 0) noValuesDb fuel
            (initialLoop (batch 0 1) noValuesDb 0)).
  replace (initialLoop (batch 0 1) noValuesDb 0) with (noValuesLoop 0)
    by (vm_compute; reflexivity).
  apply (whileLoop_stuck _ _ _ noValuesLoop 1).
  - intros tick. vm_compute. reflexivity.
  - apply noValuesLoop_body.
Qed.

(** ** What a draw is made of *)

(** Inversion of a bind that returns. *)
Lemma bind_Returns {A B} (m : M A) (k : A -> M B) tick b tick' :
  bind m k tick = Returns (b, tick') ->
  exists a tick1, m tick = Returns (a, tick1) /\ k a tick1 = Returns (b, tick').
Proof.
  unfold bind. destruct (m tick) as [[a tick1]|]; [|discriminate]. eauto.
Qed.

Lemma ret_Returns {A} (a b : A) tick tick' :
  ret a tick = Returns (b, tick') -> a = b /\ tick = tick'.
Proof. unfold ret. intros H. by injection H. Qed.

Tactic Notation "invert_bind" hyp(H) "as" ident(a) ident(H1) :=
  let t := fresh "tick" in
  apply bind_Returns in H as (a & t & H1 & H).

Lemma lookupValues_Returns traitValues traitId tick values tick' :
  lookupValues traitValues traitId tick = Returns (values, tick') ->
  traitValues !! traitId = Some values /\ tick = tick'.
Proof.
  unfold lookupValues. destruct (traitValues !! traitId) as [vs|]; [|discriminate].
  intros H. apply ret_Returns in H as [-> ->]. done.
Qed.

Lemma jsIndex_elem {A} (l : list A) i x : jsIndex l i = Some x -> x ∈ l.
Proof.
  unfold jsIndex. destruct (Z.ltb i 0); [discriminate|].
  apply list_elem_of_lookup_2.
Qed.

Lemma randomValueLoop_elem env values exclude attemptsLeft tick value tick' :
  randomValueLoop env values exclude attemptsLeft tick = Returns (Some value, tick') ->
  value ∈ values.
Proof.
  revert tick. induction attemptsLeft as [|n IH]; intros tick Hrun.
  - discriminate.
  - rewrite randomValueLoop_step in Hrun.
    destruct (isExcluded exclude (drawAt env values tick)); [by eapply IH|].
    injection Hrun as Hdraw _. by eapply walkSegments_elem.
Qed.

Lemma randomValue_elem env values isTraitAlwaysUnique exclude tick value tick' :
  randomValue env values isTraitAlwaysUnique exclude tick = Returns (Some value, tick') ->
  value ∈ values.
Proof.
  unfold randomValue. destruct isTraitAlwaysUnique.
  - unfold bind, mathRandom, ret. intros H. injection H as H _.
    by eapply jsIndex_elem.
  - apply randomValueLoop_elem.
Qed.

Lemma randomTraitValues_Returns env traits traitValues tick pairs tick' :
  randomTraitValues env traits traitValues tick = Returns (pairs, tick') ->
  map TraitValuePair.trait pairs = traits /\ Forall (drawnFrom traitValues) pairs.
Proof.
  revert tick pairs tick'. induction traits as [|trait rest IH]; intros tick pairs tick' Hrun.
  - apply ret_Returns in Hrun as [<- _]. by split.
  - simpl in Hrun. invert_bind Hrun as values Hlookup.
    apply lookupValues_Returns in Hlookup as [Hvalues ->].
    invert_bind Hrun as drawn Hdraw. invert_bind Hrun as others Hrest.
    apply ret_Returns in Hrun as [<- _].
    destruct (IH _ _ _ Hrest) as [Htraits Hdrawn].
    split; [simpl; by rewrite Htraits|].
    constructor; [|done].
    intros value Hvalue. simpl in Hvalue. subst drawn.
    exists values. split; [done|]. by eapply randomValue_elem.
Qed.

Lemma drawUnusedPairs_Returns env traits traitValues persisted retriesAfter tick pairs tick' :
  drawUnusedPairs env traits traitValues persisted retriesAfter tick
    = Returns ((pairs, false), tick') ->
  map TraitValuePair.trait pairs = traits /\
  Forall (drawnFrom traitValues) pairs /\
  isUniqueTraitsHash (traitsHash pairs) persisted = true.
Proof.
  revert tick. induction retriesAfter as [|n IH]; intros tick Hrun.
  - simpl in Hrun. invert_bind Hrun as draw Hdraw.
    apply ret_Returns in Hrun as [Hrun _]. discriminate.
  - simpl in Hrun. invert_bind Hrun as draw Hdraw.
    destruct (isUniqueTraitsHash (traitsHash draw) persisted) eqn:Hunique.
    + apply ret_Returns in Hrun as [Hrun _]. injection Hrun as ->.
      destruct (randomTraitValues_Returns _ _ _ _ _ _ Hdraw). done.
    + by eapply IH.
Qed.

(** The twentieth draw is never used. *)
Lemma drawUnusedPairs_last env traits traitValues persisted tick :
  drawUnusedPairs env traits traitValues persisted 0 tick
  = match randomTraitValues env traits traitValues tick with
    | Returns (pairs, tick') => Returns ((pairs, true), tick')
    | Throws => Throws
    end.
Proof.
  simpl. unfold bind.
  by destruct (randomTraitValues env traits traitValues tick) as [[pairs tick']|].
Qed.

Lemma setTraitValue_drawnFrom traitValues index value (pairs : list TraitValuePair.t) :
  (forall pair v, pairs !! index = Some pair -> value = Some v ->
     exists values, traitValues !! pairTraitId pair = Some values /\ v ∈ values) ->
  Forall (drawnFrom traitValues) pairs ->
  Forall (drawnFrom traitValues) (setTraitValue index value pairs).
Proof.
  intros Hvalue Hall. apply Forall_lookup. intros j p Hj.
  unfold setTraitValue in Hj.
  destruct (decide (index = j)) as [->|Hne].
  - rewrite list_lookup_alter_eq in Hj.
    destruct (pairs !! j) as [q|] eqn:Hq; [|discriminate].
    injection Hj as <-. intros v Hv. simpl in Hv.
    by apply (Hvalue q v).
  - rewrite list_lookup_alter_ne in Hj by done.
    by eapply (proj1 (Forall_lookup _ _) Hall).
Qed.

Lemma resolveConflict_Returns env traitValues pairs conflict tick resolved tick' :
  resolveConflict env traitValues pairs conflict tick = Returns (resolved, tick') ->
  map TraitValuePair.trait resolved = map TraitValuePair.trait pairs /\
  (Forall (drawnFrom traitValues) pairs -> Forall (drawnFrom traitValues) resolved).
Proof.
  unfold resolveConflict.
  destruct (list_find _ pairs) as [[trait1Index pair1]|] eqn:Hf1;
    [|intros H; apply ret_Returns in H as [<- _]; done].
  destruct (list_find (fun pair => pairTraitId pair = Conflict.trait2Id conflict) pairs)
    as [[trait2Index pair2]|] eqn:Hf2;
    [|intros H; apply ret_Returns in H as [<- _]; done].
  apply list_find_Some in Hf1 as (Hi1 & _ & _).
  apply list_find_Some in Hf2 as (Hi2 & _ & _).
  destruct (negb _); [intros H; apply ret_Returns in H as [<- _]; done|].
  destruct (negb _); [intros H; apply ret_Returns in H as [<- _]; done|].
  destruct (Conflict.resolutionType conflict); intros Hrun.
  - apply ret_Returns in Hrun as [<- _]. split; [apply setTraitValue_traits|].
    apply setTraitValue_drawnFrom. intros ? ? _ ?. discriminate.
  - apply ret_Returns in Hrun as [<- _]. split; [apply setTraitValue_traits|].
    apply setTraitValue_drawnFrom. intros ? ? _ ?. discriminate.
  - invert_bind Hrun as values Hlookup.
    apply lookupValues_Returns in Hlookup as [Hvalues ->].
    invert_bind Hrun as redrawn Hdraw. apply ret_Returns in Hrun as [<- _].
    split; [apply setTraitValue_traits|].
    apply setTraitValue_drawnFrom. intros pair v Hpair ->.
    assert (pair = pair1) as -> by congruence.
    exists values. split; [done|]. by eapply randomValue_elem.
  - invert_bind Hrun as values Hlookup.
    apply lookupValues_Returns in Hlookup as [Hvalues ->].
    invert_bind Hrun as redrawn Hdraw. apply ret_Returns in Hrun as [<- _].
    split; [apply setTraitValue_traits|].
    apply setTraitValue_drawnFrom. intros pair v Hpair ->.
    assert (pair = pair2) as -> by congruence.
    exists values. split; [done|]. by eapply randomValue_elem.
Qed.

Lemma resolveConflicts_Returns env pairs conflicts traitValues tick resolved tick' :
  resolveConflicts env pairs conflicts traitValues tick = Returns (resolved, tick') ->
  map TraitValuePair.trait resolved = map TraitValuePair.trait pairs /\
  (Forall (drawnFrom traitValues) pairs -> Forall (drawnFrom traitValues) resolved).
Proof.
  revert pairs tick. induction conflicts as [|conflict rest IH]; intros pairs tick Hrun.
  - apply ret_Returns in Hrun as [<- _]. done.
  - simpl in Hrun. invert_bind Hrun as step Hstep.
    destruct (resolveConflict_Returns _ _ _ _ _ _ _ Hstep) as [Ht1 Hd1].
    destruct (IH _ _ Hrun) as [Ht2 Hd2].
    split; [congruence | auto].
Qed.


(** ** The loop of [generate] *)

Section Loop.
Context (this : ArtworkGenerator.t) (env : Env.t) (db : Database.t).


Lemma loopBody_Returns s s' :
  loopBody this env db s = Returns s' ->
  (exists tick',
      itemAt this env db s (Loop.tick s) = Returns (None, tick') /\
      s' = Loop.mk (Loop.i s) (Loop.composites s) (Loop.traitValues s)
             (Loop.persisted s) tick')
  \/
  (exists composite tick' traitValues,
      itemAt this env db s (Loop.tick s) = Returns (Some composite, tick') /\
      removeUsedAlwaysUniqueTraitValues (generatorTraits db) (Loop.traitValues s) composite
        = Returns traitValues /\
      s' = Loop.mk (Loop.i s + 1) (Loop.composites s ++ [Some composite]) traitValues
             (Loop.persisted s ++ [composite]) tick').
Proof.
  unfold loopBody, itemAt.
  destruct (generateArtworkForItem _ _ _ _ _ _ _ _ _ _ _ _) as [[[composite|] tick']|];
    [| |discriminate].
  - simpl. destruct (removeUsedAlwaysUniqueTraitValues _ _ _) as [traitValues|]
      eqn:Hremove; [|discriminate].
    intros H. injection H as <-. right. exists composite, tick', traitValues. done.
  - intros H. injection H as <-. left. eauto.
Qed.


(** The index counts the composites made so far, and none of them is
    null. *)
Lemma reachable_index tick s :
  reachable this env db tick s ->
  Loop.i s = ArtworkGenerator.startIndex this + Z.of_nat (length (Loop.composites s)) /\
  Forall is_Some (Loop.composites s) /\
  (ArtworkGenerator.startIndex this <= ArtworkGenerator.endIndex this ->
   Loop.i s <= ArtworkGenerator.endIndex this).
Proof.
  induction 1 as [|s s' Hreach (Hi & Hsome & Hend) Hlt Hbody].
  - simpl. split; [lia|]. split; [constructor | done].
  - apply loopBody_Returns in Hbody
      as [(tick' & _ & ->)|(composite & tick' & traitValues & _ & _ & ->)]; simpl.
    + done.
    + rewrite length_app. simpl. split; [lia|]. split; [|lia].
      apply Forall_app. split; [done|]. by repeat constructor.
Qed.

(** The dictionary of a scope with traits has entries, so the second guard
    of [generate] never fires after the first. *)
Lemma prefetchTraitValues_size traits valuesWithImages :
  traits <> [] -> size (prefetchTraitValues db traits valuesWithImages) <> 0%nat.
Proof.
  unfold prefetchTraitValues. intros Hne Hsize. apply map_size_empty_inv in Hsize.
  revert Hsize.
  assert (Hfold : forall (dict : TraitValuesDict),
            traits <> [] \/ dict <> ∅ ->
            fold_left
              (fun dict trait =>
                 <[Trait.id trait := Database.traitValues db trait valuesWithImages]> dict)
              traits dict <> ∅).
  { clear Hne. induction traits as [|trait rest IH]; intros dict Hor; simpl.
    - by destruct Hor.
    - apply IH. right. apply insert_non_empty. }
  apply Hfold. by left.
Qed.



End Loop.

(** ** Abandoned items *)




(** ** Uniqueness of the persisted fingerprints *)

Lemma attachImageLayer_trait layerIndex pair :
  pairTraitId (attachImageLayer layerIndex pair) = pairTraitId pair.
Proof. reflexivity. Qed.

Lemma attachImageLayer_value layerIndex pair :
  TraitValuePair.traitValue (attachImageLayer layerIndex pair)
  = TraitValuePair.traitValue pair.
Proof. reflexivity. Qed.

Lemma sortTraitValuePairs_Permutation pairs : sortTraitValuePairs pairs ≡ₚ pairs.
Proof. apply sortByZ_Permutation. Qed.







(** ** Depletion of the always-unique pools *)

Lemma removeUsedOfTrait_other trait traitValues composite traitValues' key :
  removeUsedOfTrait trait traitValues composite = Returns traitValues' ->
  key <> Trait.id trait ->
  traitValues' !! key = traitValues !! key.
Proof.
  unfold removeUsedOfTrait. intros Hrun Hkey.
  destruct (Trait.isAlwaysUnique trait); [|by injection Hrun as <-].
  destruct (traitValues !! Trait.id trait) as [values|]; [|discriminate].
  destruct (list_find _ values) as [[index value]|]; injection Hrun as <-; [|done].
  by rewrite lookup_insert_ne.
Qed.


Lemma removeUsed_other traits traitValues composite traitValues' key :
  removeUsedAlwaysUniqueTraitValues traits traitValues composite = Returns traitValues' ->
  key ∉ map Trait.id traits ->
  traitValues' !! key = traitValues !! key.
Proof.
  revert traitValues. induction traits as [|trait rest IH]; intros traitValues Hrun Hkey.
  - by injection Hrun as <-.
  - simpl in Hrun, Hkey. apply not_elem_of_cons in Hkey as [Hne Hkey].
    destruct (removeUsedOfTrait trait traitValues composite) as [step|] eqn:Hstep;
      [|discriminate].
    rewrite (IH _ Hrun Hkey). by eapply removeUsedOfTrait_other.
Qed.






Lemma prefetch_other (db : Database.t) traits valuesWithImages
  (dict : TraitValuesDict) key :
  key ∉ map Trait.id traits ->
  fold_left
    (fun dict trait =>
       <[Trait.id trait := Database.traitValues db trait valuesWithImages]> dict)
    traits dict !! key = dict !! key.
Proof.
  revert dict. induction traits as [|trait rest IH]; intros dict Hkey; [done|].
  simpl in *. apply not_elem_of_cons in Hkey as [Hne Hkey].
  rewrite (IH _ Hkey). by rewrite lookup_insert_ne.
Qed.

Lemma prefetchTraitValues_lookup (db : Database.t) traits valuesWithImages trait :
  NoDup (map Trait.id traits) ->
  trait ∈ traits ->
  prefetchTraitValues db traits valuesWithImages !! Trait.id trait
  = Some (Database.traitValues db trait valuesWithImages).
Proof.
  unfold prefetchTraitValues. generalize (∅ : TraitValuesDict).
  induction traits as [|first rest IH]; intros dict Hnd Hin.
  - by apply elem_of_nil in Hin.
  - simpl in *. apply NoDup_cons in Hnd as [Hfresh Hnd].
    apply elem_of_cons in Hin as [->|Hin]; [|by apply IH].
    rewrite (prefetch_other _ _ _ _ _ Hfresh). by rewrite lookup_insert_eq.
Qed.



Lemma created_snoc composites composite :
  created (composites ++ [Some composite]) = created composites ++ [composite].
Proof. unfold created. by rewrite omap_app. Qed.



Section Depletion.
Context (this : ArtworkGenerator.t) (env : Env.t) (db : Database.t) (tick : nat).
Context (trait : Trait.t).
Hypothesis distinct_traits : NoDup (map Trait.id (Database.traits db)).
Hypothesis trait_in_scope : trait ∈ Database.traits db.
Hypothesis always_unique : Trait.isAlwaysUnique trait = true.


End Depletion.


(** ** The theorems at work on the scenarios *)


Lemma dropFirst_resolution_witness :
  NoDup (map pairTraitId laserSmile) /\
  exists resolved,
    resolveConflicts (constantEnv 0) laserSmile
      [Conflict.mk "eyes" (Some "laser") "mouth" (Some "smile") Trait1None]
      conflictPools 0%nat = Returns (resolved, 0%nat) /\
    forall p, p ∈ resolved -> pairTraitId p = "eyes" ->
              TraitValuePair.traitValue p = None.
Proof.
  assert (Hnd : NoDup (map pairTraitId laserSmile)).
  { simpl. apply NoDup_cons. split; [|apply NoDup_singleton].
    intros Hin. apply list_elem_of_singleton in Hin. discriminate. }
  split; [exact Hnd|].
  destruct (proj1 (dropFirst_resolution (constantEnv 0) conflictPools laserSmile
                     "eyes" "laser" "mouth" "smile" 0%nat Hnd))
    as (resolved & Hrun & _ & Hdropped & _).
  - exists (TraitValuePair.mk eyes (Some laser) None),
           (TraitValuePair.mk mouth (Some smile) None).
    split; [apply elem_of_cons; by left|]. split; [reflexivity|]. split; [reflexivity|].
    split; [apply elem_of_cons; right; apply elem_of_cons; by left|].
    split; reflexivity.
  - exists resolved. split; [exact Hrun | exact Hdropped].
Defined.

Lemma companion_layer_position_witness :
  OrderedImageLayer.mk shadowLayer 7
    ∈ emittedImageLayers [redPair; robePair; glowPair]
        [shadowLayer; robeLayer; glowLayer] /\
  sortedImageLayersInjectingCompanions [redPair; robePair; glowPair]
    [shadowLayer; robeLayer; glowLayer]
  = [redLayer; robeLayer; glowLayer; shadowLayer].
Proof.
  destruct (companion_layer_position [redPair; robePair; glowPair]
              [shadowLayer; robeLayer; glowLayer] robePair robeLayer shadowLayer "layer-shadow" 7 0%nat)
    as (_ & Hemitted & _).
  - apply elem_of_cons. right. apply elem_of_cons. by left.
  - reflexivity.
  - reflexivity.
  - reflexivity.
  - vm_compute. reflexivity.
  - split; [exact Hemitted | reflexivity].
Defined.

(** * Further properties of the generator *)

(** ** The sampler at its edges *)

(** X1. On an empty value list [randomValue] asks for one random number
    and returns no value, on the always-unique branch as on the weighted
    one, with or without an excluded id. *)
Theorem randomValue_on_empty_list (env : Env.t) (isTraitAlwaysUnique : bool)
  (excludeTraitValueId : option string) (tick : nat) :
  randomValue env [] isTraitAlwaysUnique excludeTraitValueId tick
  = Returns (None, S tick).
Proof.
  unfold randomValue. destruct isTraitAlwaysUnique.
  - unfold bind, mathRandom, ret, jsIndex.
    by destruct (Z.ltb _ 0).
  - unfold maxAttempts. rewrite randomValueLoop_step.
    change (drawAt env [] tick) with (@None TraitValue.t).
    by destruct excludeTraitValueId.
Qed.







(** X4. [randomNumber] takes one number of the csprng and divides it by
    [10^digitsPrecision]; when the csprng keeps to [0, 10^digitsPrecision]
    the result lies between 0 and 1, both ends included. *)
Theorem randomNumber_range (env : Env.t) (digitsPrecision tick : nat) :
  0 <= Env.csprng env tick <= 10 ^ Z.of_nat digitsPrecision ->
  exists r : Q,
    randomNumber env digitsPrecision tick = Returns (r, S tick) /\
    (r * inject_Z (10 ^ Z.of_nat digitsPrecision) == inject_Z (Env.csprng env tick))%Q /\
    (0 <= r)%Q /\ (r <= 1)%Q.
Proof.
  intros [Hlow Hhigh]. eexists. split; [reflexivity|].
  assert (Hpos : (0 < inject_Z (10 ^ Z.of_nat digitsPrecision))%Q).
  { change 0%Q with (inject_Z 0). rewrite <- Zlt_Qlt. apply Z.pow_pos_nonneg; lia. }
  split; [|split].
  - rewrite Qmult_comm. apply Qmult_div_r. intros Hzero. rewrite Hzero in Hpos. by apply Qlt_irrefl in Hpos.
  - apply Qle_shift_div_l; [done|]. rewrite Qmult_0_l.
    change 0%Q with (inject_Z 0). by rewrite <- Zle_Qle.
  - apply Qle_shift_div_r; [done|]. rewrite Qmult_1_l. by rewrite <- Zle_Qle.
Qed.

Lemma randomNumber_range_witness :
  exists r : Q,
    randomNumber (Sample.env 0 10000) 4 0%nat = Returns (r, 1%nat) /\
    (r * inject_Z (10 ^ Z.of_nat 4) == inject_Z 10000)%Q /\
    (0 <= r)%Q /\ (r <= 1)%Q.
Proof.
  apply (randomNumber_range (Sample.env 0 10000) 4 0%nat).
  simpl. lia.
Defined.

(** ** The draw of a combination *)

Lemma randomValue_one_request env values isTraitAlwaysUnique tick :
  exists value,
    randomValue env values isTraitAlwaysUnique None tick = Returns (value, S tick).
Proof.
  destruct isTraitAlwaysUnique.
  - eexists. unfold randomValue, bind, mathRandom, ret. reflexivity.
  - eexists. apply randomValue_unexcluded.
Qed.

(** X5. When every trait has an entry in the dictionary of pools,
    [randomTraitValues] returns one pair per trait, in the order of the
    traits and without image layer, each value being null or a value of
    the pool of its trait; it asks for exactly one random number per
    trait. *)
Theorem randomTraitValues_one_pair_per_trait (env : Env.t) (traits : list Trait.t)
  (traitValues : TraitValuesDict) (tick : nat) :
  (forall trait, trait ∈ traits -> is_Some (traitValues !! Trait.id trait)) ->
  exists pairs : list TraitValuePair.t,
    randomTraitValues env traits traitValues tick
      = Returns (pairs, (tick + length traits)%nat) /\
    map TraitValuePair.trait pairs = traits /\
    Forall (fun pair => TraitValuePair.imageLayer pair = None) pairs /\
    Forall (drawnFrom traitValues) pairs.
Proof.
  revert tick. induction traits as [|trait rest IH]; intros tick Hentries.
  - exists []. simpl. unfold ret. rewrite Nat.add_0_r. done.
  - destruct (Hentries trait) as [values Hvalues]; [apply elem_of_cons; by left|].
    destruct (randomValue_one_request env values (Trait.isAlwaysUnique trait) tick)
      as [value Hvalue].
    destruct (IH (S tick)) as (pairs & Hrest & Htraits & Hlayers & Hdrawn).
    { intros other Hin. apply Hentries. apply elem_of_cons. by right. }
    exists (TraitValuePair.mk trait value None :: pairs).
    assert (Hrun : randomTraitValues env (trait :: rest) traitValues tick
                   = Returns (TraitValuePair.mk trait value None :: pairs,
                              (tick + length (trait :: rest))%nat)).
    { simpl. unfold bind at 1. unfold lookupValues. rewrite Hvalues. unfold ret at 1.
      unfold bind at 1. rewrite Hvalue. unfold bind. rewrite Hrest. unfold ret.
      do 2 f_equal. lia. }
    split; [exact Hrun|]. split; [simpl; by rewrite Htraits|].
    split; [by constructor|].
    by destruct (randomTraitValues_Returns _ _ _ _ _ _ Hrun).
Qed.

Lemma randomTraitValues_one_pair_per_trait_witness :
  exists pairs : list TraitValuePair.t,
    randomTraitValues (constantEnv 0) [eyes; mouth] conflictPools 0%nat
      = Returns (pairs, 2%nat) /\
    map TraitValuePair.trait pairs = [eyes; mouth].
Proof.
  destruct (randomTraitValues_one_pair_per_trait (constantEnv 0) [eyes; mouth]
              conflictPools 0%nat) as (pairs & Hrun & Htraits & _).
  - intros trait Hin.
    apply elem_of_cons in Hin as [->|Hin]; [by eexists|].
    apply list_elem_of_singleton in Hin as ->. by eexists.
  - exists pairs. split; [exact Hrun | exact Htraits].
Defined.

(** X6. When some trait has no entry in the dictionary of pools,
    [randomTraitValues] throws: no partial draw is returned. *)
Theorem randomTraitValues_missing_pool_throws (env : Env.t) (traits : list Trait.t)
  (traitValues : TraitValuesDict) (trait : Trait.t) (tick : nat) :
  trait ∈ traits ->
  traitValues !! Trait.id trait = None ->
  randomTraitValues env traits traitValues tick = Throws.
Proof.
  revert tick. induction traits as [|first rest IH]; intros tick Hin Hmissing.
  - by apply elem_of_nil in Hin.
  - simpl. unfold bind at 1. unfold lookupValues.
    destruct (traitValues !! Trait.id first) as [values|] eqn:Hvalues; [|done].
    apply elem_of_cons in Hin as [->|Hin]; [congruence|].
    unfold ret at 1.
    destruct (randomValue_one_request env values (Trait.isAlwaysUnique first) tick)
      as [value Hvalue].
    unfold bind at 1. rewrite Hvalue. unfold bind. by rewrite (IH (S tick) Hin Hmissing).
Qed.

Lemma randomTraitValues_missing_pool_throws_witness :
  randomTraitValues (constantEnv 0) [eyes; hat; mouth] conflictPools 0%nat = Throws.
Proof.
  apply (randomTraitValues_missing_pool_throws (constantEnv 0) [eyes; hat; mouth]
           conflictPools hat 0%nat).
  - apply elem_of_cons. right. apply elem_of_cons. by left.
  - reflexivity.
Defined.

(** ** Conflict resolution, all resolution types *)

Lemma valueMatches_carried traitId valueId (pairs : list TraitValuePair.t) p :
  p ∈ pairs -> pairTraitId p = traitId ->
  (forall v, valueId = Some v -> pairValueId p = Some v) ->
  valueMatches traitId valueId pairs = true.
Proof.
  intros Hin Htrait Hvalue. destruct valueId as [v|]; [|done].
  eapply valueMatches_intro; eauto.
Qed.

Lemma list_find_trait (pairs : list TraitValuePair.t) i p :
  NoDup (map pairTraitId pairs) ->
  pairs !! i = Some p ->
  list_find (fun pair => pairTraitId pair = pairTraitId p) pairs = Some (i, p).
Proof.
  intros Hnd Hi. apply list_find_Some. split; [done|]. split; [done|].
  intros j q Hj Hlt Heq.
  assert (j = i) by (eapply pairTraitId_position; eauto). lia.
Qed.

(** A conflict whose two traits are in the draw with the values it asks
    for: what the body of the loop does, by resolution type. *)
Lemma resolveConflict_matched env traitValuesDict (pairs : list TraitValuePair.t)
  conflict i pa j pb tick :
  NoDup (map pairTraitId pairs) ->
  pairs !! i = Some pa -> pairTraitId pa = Conflict.trait1Id conflict ->
  (forall v, Conflict.trait1ValueId conflict = Some v -> pairValueId pa = Some v) ->
  pairs !! j = Some pb -> pairTraitId pb = Conflict.trait2Id conflict ->
  (forall v, Conflict.trait2ValueId conflict = Some v -> pairValueId pb = Some v) ->
  resolveConflict env traitValuesDict pairs conflict tick
  = match Conflict.resolutionType conflict with
    | Trait1None => ret (setTraitValue i None pairs)
    | Trait2None => ret (setTraitValue j None pairs)
    | Trait1Random =>
        let* values := lookupValues traitValuesDict (pairTraitId pa) in
        let* newRandomValue1 :=
          randomValue env values (Trait.isAlwaysUnique (TraitValuePair.trait pa))
            (pairValueId pa) in
        ret (setTraitValue i newRandomValue1 pairs)
    | Trait2Random =>
        let* values := lookupValues traitValuesDict (pairTraitId pb) in
        let* newRandomValue2 :=
          randomValue env values (Trait.isAlwaysUnique (TraitValuePair.trait pb))
            (pairValueId pb) in
        ret (setTraitValue j newRandomValue2 pairs)
    end tick.
Proof.
  intros Hnd Hi Ha Hva Hj Hb Hvb. unfold resolveConflict.
  rewrite <- Ha, (list_find_trait pairs i pa Hnd Hi).
  rewrite <- Hb, (list_find_trait pairs j pb Hnd Hj).
  rewrite Ha, Hb.
  rewrite (valueMatches_carried _ _ pairs pa); [|by eapply list_elem_of_lookup_2|done..].
  rewrite (valueMatches_carried _ _ pairs pb); [|by eapply list_elem_of_lookup_2|done..].
  reflexivity.
Qed.

Lemma resolveConflicts_skip (env : Env.t)
  (traitValuePairs : list TraitValuePair.t) (conflict : Conflict.t)
  (traitValuesDict : TraitValuesDict) (tick : nat) :
  (forall p, p ∈ traitValuePairs -> pairTraitId p <> Conflict.trait1Id conflict) \/
  (forall p, p ∈ traitValuePairs -> pairTraitId p <> Conflict.trait2Id conflict) \/
  (exists v, Conflict.trait1ValueId conflict = Some v /\
             forall p, p ∈ traitValuePairs ->
                       pairTraitId p = Conflict.trait1Id conflict ->
                       pairValueId p <> Some v) \/
  (exists v, Conflict.trait2ValueId conflict = Some v /\
             forall p, p ∈ traitValuePairs ->
                       pairTraitId p = Conflict.trait2Id conflict ->
                       pairValueId p <> Some v) ->
  resolveConflicts env traitValuePairs [conflict] traitValuesDict tick
  = Returns (traitValuePairs, tick).
Proof.
  intros Hskip. rewrite resolveConflicts_single. unfold resolveConflict.
  destruct (list_find (fun pair => pairTraitId pair = Conflict.trait1Id conflict)
              traitValuePairs) as [[i p1]|] eqn:Hf1; [|done].
  destruct (list_find (fun pair => pairTraitId pair = Conflict.trait2Id conflict)
              traitValuePairs) as [[j p2]|] eqn:Hf2; [|done].
  apply list_find_Some in Hf1 as (Hi & Hti & _).
  apply list_find_Some in Hf2 as (Hj & Htj & _).
  destruct Hskip as [Hno|[Hno|[(v & Hv & Hno)|(v & Hv & Hno)]]].
  - destruct (Hno p1); [by eapply list_elem_of_lookup_2 | done].
  - destruct (Hno p2); [by eapply list_elem_of_lookup_2 | done].
  - by rewrite Hv, (valueMatches_absent _ v traitValuePairs Hno).
  - rewrite Hv, (valueMatches_absent _ v traitValuePairs Hno). cbn [negb].
    by destruct (negb _).
Qed.

(** X7. Whatever its resolution type, a conflict is skipped, leaving the
    draw and the random state as they are, when one of its two traits is
    absent from the draw or when a value id it names is carried by no pair
    of that trait. *)
Theorem resolveConflicts_skips_unmatched (env : Env.t)
  (traitValuePairs : list TraitValuePair.t) (conflict : Conflict.t)
  (traitValuesDict : TraitValuesDict) (tick : nat) :
  (forall p, p ∈ traitValuePairs -> pairTraitId p <> Conflict.trait1Id conflict) \/
  (forall p, p ∈ traitValuePairs -> pairTraitId p <> Conflict.trait2Id conflict) \/
  (exists v, Conflict.trait1ValueId conflict = Some v /\
             forall p, p ∈ traitValuePairs ->
                       pairTraitId p = Conflict.trait1Id conflict ->
                       pairValueId p <> Some v) \/
  (exists v, Conflict.trait2ValueId conflict = Some v /\
             forall p, p ∈ traitValuePairs ->
                       pairTraitId p = Conflict.trait2Id conflict ->
                       pairValueId p <> Some v) ->
  resolveConflicts env traitValuePairs [conflict] traitValuesDict tick
  = Returns (traitValuePairs, tick).
Proof. apply resolveConflicts_skip. Qed.

Lemma resolveConflicts_skips_unmatched_witness :
  resolveConflicts (constantEnv 0) laserSmile
    [Conflict.mk "eyes" (Some "wink") "mouth" None Trait1Random] conflictPools 0%nat
  = Returns (laserSmile, 0%nat).
Proof.
  apply resolveConflicts_skips_unmatched.
  right. right. left. exists "wink". split; [reflexivity|].
  intros p Hin _. simpl in Hin.
  apply elem_of_cons in Hin as [->|Hin]; [discriminate|].
  apply list_elem_of_singleton in Hin as ->. discriminate.
Defined.

(** X8. A matched conflict of resolution DropSecond ([Trait2None]), with or
    without value ids, leaves the pair of its second trait without a value
    and every other pair as it was, and asks for no random number. *)
Theorem dropSecond_resolution (env : Env.t) (traitValuesDict : TraitValuesDict)
  (traitValuePairs : list TraitValuePair.t) (conflict : Conflict.t)
  (pa pb : TraitValuePair.t) (tick : nat) :
  Conflict.resolutionType conflict = Trait2None ->
  NoDup (map pairTraitId traitValuePairs) ->
  pa ∈ traitValuePairs -> pairTraitId pa = Conflict.trait1Id conflict ->
  (forall v, Conflict.trait1ValueId conflict = Some v -> pairValueId pa = Some v) ->
  pb ∈ traitValuePairs -> pairTraitId pb = Conflict.trait2Id conflict ->
  (forall v, Conflict.trait2ValueId conflict = Some v -> pairValueId pb = Some v) ->
  exists resolved,
    resolveConflicts env traitValuePairs [conflict] traitValuesDict tick
      = Returns (resolved, tick) /\
    (forall i p, traitValuePairs !! i = Some p ->
       resolved !! i
       = Some (if decide (pairTraitId p = Conflict.trait2Id conflict)
               then TraitValuePair.mk (TraitValuePair.trait p) None
                      (TraitValuePair.imageLayer p)
               else p)).
Proof.
  intros Htype Hnd Hpa Hta Hva Hpb Htb Hvb.
  apply list_elem_of_lookup_1 in Hpa as [i Hi].
  apply list_elem_of_lookup_1 in Hpb as [j Hj].
  rewrite resolveConflicts_single.
  rewrite (resolveConflict_matched _ _ _ _ i pa j pb tick Hnd Hi Hta Hva Hj Htb Hvb).
  rewrite Htype. eexists. split; [reflexivity|].
  intros k p Hk. unfold setTraitValue.
  destruct (decide (pairTraitId p = Conflict.trait2Id conflict)) as [Heq|Hne].
  - assert (j = k) as -> by (eapply pairTraitId_position; eauto; congruence).
    by rewrite list_lookup_alter_eq, Hk.
  - rewrite list_lookup_alter_ne; [done|]. intros <-. congruence.
Qed.

Lemma dropSecond_resolution_witness :
  exists resolved,
    resolveConflicts (constantEnv 0) laserSmile
      [Conflict.mk "eyes" None "mouth" (Some "smile") Trait2None] conflictPools 0%nat
      = Returns (resolved, 0%nat) /\
    resolved !! 1%nat = Some (TraitValuePair.mk mouth None None).
Proof.
  destruct (dropSecond_resolution (constantEnv 0) conflictPools laserSmile
              (Conflict.mk "eyes" None "mouth" (Some "smile") Trait2None)
              (TraitValuePair.mk eyes (Some laser) None)
              (TraitValuePair.mk mouth (Some smile) None) 0%nat)
    as (resolved & Hrun & Hpairs).
  - reflexivity.
  - simpl. apply NoDup_cons. split; [|apply NoDup_singleton].
    intros Hin. apply list_elem_of_singleton in Hin. discriminate.
  - apply elem_of_cons. by left.
  - reflexivity.
  - discriminate.
  - apply elem_of_cons. right. apply elem_of_cons. by left.
  - reflexivity.
  - intros v Hv. by injection Hv as <-.
  - exists resolved. split; [exact Hrun|].
    exact (Hpairs 1%nat (TraitValuePair.mk mouth (Some smile) None) eq_refl).
Defined.

Lemma randomValue_ticks env values isTraitAlwaysUnique exclude tick value tick' :
  randomValue env values isTraitAlwaysUnique exclude tick = Returns (value, tick') ->
  (tick < tick' <= tick + 10)%nat.
Proof.
  destruct exclude as [ex|].
  - destruct isTraitAlwaysUnique.
    + unfold randomValue, bind, mathRandom, ret. intros H. injection H as _ <-. lia.
    + destruct (randomValueLoop_budget env values ex maxAttempts tick)
        as (result & attempts & Hrun & Hle & Hpos & _).
      unfold randomValue. rewrite Hrun. intros H. injection H as _ <-.
      unfold maxAttempts in *. lia.
  - destruct (randomValue_one_request env values isTraitAlwaysUnique tick) as [v Hrun].
    rewrite Hrun. intros H. injection H as _ <-. lia.
Qed.

Lemma randomValue_weighted_avoids env values exclude tick value tick' :
  randomValue env values false exclude tick = Returns (Some value, tick') ->
  value ∈ values /\ exclude <> Some (TraitValue.id value).
Proof.
  intros Hrun. split; [by eapply randomValue_elem|].
  destruct exclude as [ex|]; [|done].
  destruct (randomValueLoop_budget env values ex maxAttempts tick)
    as (result & attempts & Hloop & _ & _ & Hne & _).
  unfold randomValue in Hrun. rewrite Hloop in Hrun. injection Hrun as -> _.
  intros Heq. injection Heq as Heq. by apply (Hne value).
Qed.

(** X9. A matched conflict of resolution RandomizeFirst ([Trait1Random]) on
    a trait that is not always unique redraws the value of its first trait
    from the pool of that trait with at least one and at most ten random
    numbers; the new value is null or a value of the pool whose id differs
    from the id of the value that conflicted; the other pairs stay. *)
Theorem randomizeFirst_resolution (env : Env.t) (traitValuesDict : TraitValuesDict)
  (traitValuePairs : list TraitValuePair.t) (conflict : Conflict.t)
  (pa pb : TraitValuePair.t) (values : list TraitValue.t) (tick : nat) :
  Conflict.resolutionType conflict = Trait1Random ->
  NoDup (map pairTraitId traitValuePairs) ->
  pa ∈ traitValuePairs -> pairTraitId pa = Conflict.trait1Id conflict ->
  (forall v, Conflict.trait1ValueId conflict = Some v -> pairValueId pa = Some v) ->
  pb ∈ traitValuePairs -> pairTraitId pb = Conflict.trait2Id conflict ->
  (forall v, Conflict.trait2ValueId conflict = Some v -> pairValueId pb = Some v) ->
  Trait.isAlwaysUnique (TraitValuePair.trait pa) = false ->
  traitValuesDict !! pairTraitId pa = Some values ->
  exists resolved newValue attempts,
    resolveConflicts env traitValuePairs [conflict] traitValuesDict tick
      = Returns (resolved, (tick + attempts)%nat) /\
    (1 <= attempts <= 10)%nat /\
    (forall value, newValue = Some value ->
       value ∈ values /\ pairValueId pa <> Some (TraitValue.id value)) /\
    (forall i p, traitValuePairs !! i = Some p ->
       resolved !! i
       = Some (if decide (pairTraitId p = Conflict.trait1Id conflict)
               then TraitValuePair.mk (TraitValuePair.trait p) newValue
                      (TraitValuePair.imageLayer p)
               else p)).
Proof.
  intros Htype Hnd Hpa Hta Hva Hpb Htb Hvb Hweighted Hpool.
  apply list_elem_of_lookup_1 in Hpa as [i Hi].
  apply list_elem_of_lookup_1 in Hpb as [j Hj].
  rewrite resolveConflicts_single.
  rewrite (resolveConflict_matched _ _ _ _ i pa j pb tick Hnd Hi Hta Hva Hj Htb Hvb).
  rewrite Htype, Hweighted. unfold bind at 1. unfold lookupValues. rewrite Hpool.
  unfold ret at 1. unfold bind.
  destruct (randomValue env values false (pairValueId pa) tick)
    as [[newValue tick']|] eqn:Hdraw.
  2:{ destruct (pairValueId pa) as [ex|].
      - destruct (randomValueLoop_budget env values ex maxAttempts tick)
          as (result & attempts & Hloop & _).
        unfold randomValue in Hdraw. congruence.
      - rewrite randomValue_unexcluded in Hdraw. discriminate. }
  pose proof (randomValue_ticks _ _ _ _ _ _ _ Hdraw) as Hticks.
  exists (setTraitValue i newValue traitValuePairs), newValue, (tick' - tick)%nat.
  split; [unfold ret; do 2 f_equal; lia|]. split; [lia|]. split.
  - intros value ->. by eapply randomValue_weighted_avoids.
  - intros k p Hk. unfold setTraitValue.
    destruct (decide (pairTraitId p = Conflict.trait1Id conflict)) as [Heq|Hne].
    + assert (i = k) as -> by (eapply pairTraitId_position; eauto; congruence).
      by rewrite list_lookup_alter_eq, Hk.
    + rewrite list_lookup_alter_ne; [done|]. intros <-. congruence.
Qed.

Lemma randomizeFirst_resolution_witness :
  exists resolved newValue attempts,
    resolveConflicts (constantEnv 0) laserSmile
      [Conflict.mk "eyes" (Some "laser") "mouth" None Trait1Random] conflictPools 0%nat
      = Returns (resolved, (0 + attempts)%nat) /\
    (1 <= attempts <= 10)%nat /\
    (forall value, newValue = Some value -> TraitValue.id value <> "laser").
Proof.
  destruct (randomizeFirst_resolution (constantEnv 0) conflictPools laserSmile
              (Conflict.mk "eyes" (Some "laser") "mouth" None Trait1Random)
              (TraitValuePair.mk eyes (Some laser) None)
              (TraitValuePair.mk mouth (Some smile) None) [laser] 0%nat)
    as (resolved & newValue & attempts & Hrun & Hattempts & Hnew & _).
  - reflexivity.
  - simpl. apply NoDup_cons. split; [|apply NoDup_singleton].
    intros Hin. apply list_elem_of_singleton in Hin. discriminate.
  - apply elem_of_cons. by left.
  - reflexivity.
  - intros v Hv. by injection Hv as <-.
  - apply elem_of_cons. right. apply elem_of_cons. by left.
  - reflexivity.
  - discriminate.
  - reflexivity.
  - reflexivity.
  - exists resolved, newValue, attempts. split; [exact Hrun|]. split; [exact Hattempts|].
    intros value Hvalue Hid. destruct (Hnew value Hvalue) as [_ Hne].
    apply Hne. simpl. by rewrite Hid.
Defined.

(** X10. A matched conflict of a Randomize resolution whose trait has no
    entry in the dictionary of pools makes [resolveConflicts] throw. *)
Theorem randomize_missing_pool_throws (env : Env.t) (traitValuesDict : TraitValuesDict)
  (traitValuePairs : list TraitValuePair.t) (conflict : Conflict.t)
  (pa pb : TraitValuePair.t) (rest : list Conflict.t) (tick : nat) :
  NoDup (map pairTraitId traitValuePairs) ->
  pa ∈ traitValuePairs -> pairTraitId pa = Conflict.trait1Id conflict ->
  (forall v, Conflict.trait1ValueId conflict = Some v -> pairValueId pa = Some v) ->
  pb ∈ traitValuePairs -> pairTraitId pb = Conflict.trait2Id conflict ->
  (forall v, Conflict.trait2ValueId conflict = Some v -> pairValueId pb = Some v) ->
  (Conflict.resolutionType conflict = Trait1Random /\
   traitValuesDict !! Conflict.trait1Id conflict = None) \/
  (Conflict.resolutionType conflict = Trait2Random /\
   traitValuesDict !! Conflict.trait2Id conflict = None) ->
  resolveConflicts env traitValuePairs (conflict :: rest) traitValuesDict tick = Throws.
Proof.
  intros Hnd Hpa Hta Hva Hpb Htb Hvb Hmissing.
  apply list_elem_of_lookup_1 in Hpa as [i Hi].
  apply list_elem_of_lookup_1 in Hpb as [j Hj].
  simpl. unfold bind at 1.
  rewrite (resolveConflict_matched _ _ _ _ i pa j pb tick Hnd Hi Hta Hva Hj Htb Hvb).
  destruct Hmissing as [[-> Hnone]|[-> Hnone]]; unfold bind, lookupValues.
  - by rewrite Hta, Hnone.
  - by rewrite Htb, Hnone.
Qed.

Lemma randomize_missing_pool_throws_witness :
  resolveConflicts (constantEnv 0) laserSmile
    [Conflict.mk "eyes" None "mouth" None Trait2Random] {["eyes" := [laser]]} 0%nat
  = Throws.
Proof.
  apply (randomize_missing_pool_throws (constantEnv 0) {["eyes" := [laser]]} laserSmile
           (Conflict.mk "eyes" None "mouth" None Trait2Random)
           (TraitValuePair.mk eyes (Some laser) None)
           (TraitValuePair.mk mouth (Some smile) None) [] 0%nat).
  - simpl. apply NoDup_cons. split; [|apply NoDup_singleton].
    intros Hin. apply list_elem_of_singleton in Hin. discriminate.
  - apply elem_of_cons. by left.
  - reflexivity.
  - discriminate.
  - apply elem_of_cons. right. apply elem_of_cons. by left.
  - reflexivity.
  - discriminate.
  - right. split; reflexivity.
Defined.

(** ** What conflict resolution keeps *)

Lemma resolvedFrom_refl traitValuesDict pair : resolvedFrom traitValuesDict pair pair.
Proof. unfold resolvedFrom. auto. Qed.

Lemma resolvedFrom_trans traitValuesDict a b c :
  resolvedFrom traitValuesDict a b -> resolvedFrom traitValuesDict b c ->
  resolvedFrom traitValuesDict a c.
Proof.
  intros (Ht1 & Hl1 & Hv1) (Ht2 & Hl2 & Hv2).
  split; [congruence|]. split; [congruence|].
  destruct Hv2 as [Hsame|[Hnone|(values & value & Hpool & Hin & Hvalue)]].
  - rewrite Hsame. exact Hv1.
  - right. by left.
  - right. right. exists values, value. unfold pairTraitId in *.
    rewrite <- Ht1. done.
Qed.

Lemma Forall2_resolvedFrom_refl traitValuesDict (pairs : list TraitValuePair.t) :
  Forall2 (resolvedFrom traitValuesDict) pairs pairs.
Proof.
  apply Forall_Forall2_diag, Forall_forall. intros pair _. apply resolvedFrom_refl.
Qed.

Lemma Forall2_resolvedFrom_trans traitValuesDict (l1 l2 l3 : list TraitValuePair.t) :
  Forall2 (resolvedFrom traitValuesDict) l1 l2 ->
  Forall2 (resolvedFrom traitValuesDict) l2 l3 ->
  Forall2 (resolvedFrom traitValuesDict) l1 l3.
Proof.
  intros H12. revert l3. induction H12 as [|a b l1 l2 Hab H12 IH]; intros l3 H23.
  - by inversion H23.
  - inversion H23 as [|b' c l2' l3' Hbc H23']; subst.
    constructor; [by eapply resolvedFrom_trans | by apply IH].
Qed.

Lemma setTraitValue_resolvedFrom traitValuesDict index value
  (pairs : list TraitValuePair.t) :
  (forall pair v, pairs !! index = Some pair -> value = Some v ->
     exists values, traitValuesDict !! pairTraitId pair = Some values /\ v ∈ values) ->
  Forall2 (resolvedFrom traitValuesDict) pairs (setTraitValue index value pairs).
Proof.
  intros Hvalue. unfold setTraitValue.
  apply Forall2_alter_r; [apply Forall2_resolvedFrom_refl|].
  intros x y Hx Hy _. assert (x = y) as <- by congruence.
  split; [done|]. split; [done|]. simpl.
  destruct value as [v|]; [|right; by left].
  destruct (Hvalue x v Hx eq_refl) as (values & Hpool & Hin).
  right. right. by exists values, v.
Qed.

Lemma resolveConflict_resolvedFrom env traitValuesDict pairs conflict tick resolved tick' :
  resolveConflict env traitValuesDict pairs conflict tick = Returns (resolved, tick') ->
  Forall2 (resolvedFrom traitValuesDict) pairs resolved /\
  (tick <= tick' <= tick + 10)%nat.
Proof.
  unfold resolveConflict.
  assert (Hskip : ret pairs tick = Returns (resolved, tick') ->
                  Forall2 (resolvedFrom traitValuesDict) pairs resolved /\
                  (tick <= tick' <= tick + 10)%nat).
  { intros H. apply ret_Returns in H as [<- <-].
    split; [apply Forall2_resolvedFrom_refl | lia]. }
  destruct (list_find _ pairs) as [[trait1Index pair1]|] eqn:Hf1; [|done].
  destruct (list_find (fun pair => pairTraitId pair = Conflict.trait2Id conflict) pairs)
    as [[trait2Index pair2]|] eqn:Hf2; [|done].
  apply list_find_Some in Hf1 as (Hi1 & _ & _).
  apply list_find_Some in Hf2 as (Hi2 & _ & _).
  destruct (negb _); [done|]. destruct (negb _); [done|].
  destruct (Conflict.resolutionType conflict); intros Hrun.
  - apply ret_Returns in Hrun as [<- <-]. split; [|lia].
    apply setTraitValue_resolvedFrom. intros ? ? _ ?. discriminate.
  - apply ret_Returns in Hrun as [<- <-]. split; [|lia].
    apply setTraitValue_resolvedFrom. intros ? ? _ ?. discriminate.
  - invert_bind Hrun as values Hlookup.
    apply lookupValues_Returns in Hlookup as [Hvalues <-].
    invert_bind Hrun as redrawn Hdraw. apply ret_Returns in Hrun as [<- <-].
    pose proof (randomValue_ticks _ _ _ _ _ _ _ Hdraw). split; [|lia].
    apply setTraitValue_resolvedFrom. intros pair v Hpair ->.
    assert (pair = pair1) as -> by congruence.
    exists values. split; [done|]. by eapply randomValue_elem.
  - invert_bind Hrun as values Hlookup.
    apply lookupValues_Returns in Hlookup as [Hvalues <-].
    invert_bind Hrun as redrawn Hdraw. apply ret_Returns in Hrun as [<- <-].
    pose proof (randomValue_ticks _ _ _ _ _ _ _ Hdraw). split; [|lia].
    apply setTraitValue_resolvedFrom. intros pair v Hpair ->.
    assert (pair = pair2) as -> by congruence.
    exists values. split; [done|]. by eapply randomValue_elem.
Qed.

Lemma resolveConflicts_resolvedFrom (env : Env.t)
  (traitValuePairs : list TraitValuePair.t) (conflicts : list Conflict.t)
  (traitValuesDict : TraitValuesDict) (tick : nat)
  (resolved : list TraitValuePair.t) (tick' : nat) :
  resolveConflicts env traitValuePairs conflicts traitValuesDict tick
    = Returns (resolved, tick') ->
  Forall2 (resolvedFrom traitValuesDict) traitValuePairs resolved /\
  (tick <= tick' <= tick + 10 * length conflicts)%nat.
Proof.
  revert traitValuePairs tick.
  induction conflicts as [|conflict rest IH]; intros pairs tick Hrun.
  - apply ret_Returns in Hrun as [<- <-].
    split; [apply Forall2_resolvedFrom_refl | simpl; lia].
  - simpl in Hrun. invert_bind Hrun as step Hstep.
    destruct (resolveConflict_resolvedFrom _ _ _ _ _ _ _ Hstep) as [Hfirst Hticks].
    destruct (IH _ _ Hrun) as [Hrest Hticks'].
    split; [by eapply Forall2_resolvedFrom_trans|]. simpl. lia.
Qed.

(** X11. Whenever [resolveConflicts] returns, the draw has kept its length,
    its traits and its image layers, position by position; the value of a
    pair is the one it had, or null, or a value of the pool of its trait;
    and at most ten random numbers were asked for per conflict. *)
Theorem resolveConflicts_keeps_the_draw (env : Env.t)
  (traitValuePairs : list TraitValuePair.t) (conflicts : list Conflict.t)
  (traitValuesDict : TraitValuesDict) (tick : nat)
  (resolved : list TraitValuePair.t) (tick' : nat) :
  resolveConflicts env traitValuePairs conflicts traitValuesDict tick
    = Returns (resolved, tick') ->
  Forall2 (resolvedFrom traitValuesDict) traitValuePairs resolved /\
  (tick <= tick' <= tick + 10 * length conflicts)%nat.
Proof. apply resolveConflicts_resolvedFrom. Qed.

Lemma resolveConflicts_keeps_the_draw_witness :
  Forall2 (resolvedFrom hatPools) crownOnRed crownOnRed /\
  (0 <= 1 <= 0 + 10 * 1)%nat.
Proof.
  apply (resolveConflicts_keeps_the_draw (constantEnv 0) crownOnRed [rerollHat]
           hatPools 0%nat crownOnRed 1%nat).
  vm_compute. reflexivity.
Defined.

(** X12. Dropping is idempotent: a DropFirst conflict that names the value
    of its first trait, resolved twice in a row on a draw with one pair per
    trait, gives what resolving it once gives. *)
Theorem dropFirst_twice (env : Env.t) (traitValuesDict : TraitValuesDict)
  (traitValuePairs : list TraitValuePair.t) (conflict : Conflict.t)
  (valueId : string) (tick : nat) :
  Conflict.resolutionType conflict = Trait1None ->
  Conflict.trait1ValueId conflict = Some valueId ->
  NoDup (map pairTraitId traitValuePairs) ->
  resolveConflicts env traitValuePairs [conflict; conflict] traitValuesDict tick
  = resolveConflicts env traitValuePairs [conflict] traitValuesDict tick.
Proof.
  intros Htype Hvalue Hnd.
  assert (Hfixed : exists resolved,
             resolveConflict env traitValuesDict traitValuePairs conflict tick
               = Returns (resolved, tick) /\
             resolveConflicts env resolved [conflict] traitValuesDict tick
               = Returns (resolved, tick)).
  { unfold resolveConflict. rewrite Htype, Hvalue.
    destruct (list_find (fun pair => pairTraitId pair = Conflict.trait1Id conflict)
                traitValuePairs) as [[i p1]|] eqn:Hf1.
    2:{ exists traitValuePairs. split; [done|].
        apply resolveConflicts_skip. left.
        apply list_find_None in Hf1. by rewrite Forall_forall in Hf1. }
    destruct (list_find (fun pair => pairTraitId pair = Conflict.trait2Id conflict)
                traitValuePairs) as [[j p2]|] eqn:Hf2.
    2:{ exists traitValuePairs. split; [done|].
        apply resolveConflicts_skip. right. left.
        apply list_find_None in Hf2. by rewrite Forall_forall in Hf2. }
    destruct (valueMatches (Conflict.trait1Id conflict) (Some valueId) traitValuePairs)
      eqn:Hm1; cbn [negb].
    2:{ exists traitValuePairs. split; [done|].
        apply resolveConflicts_skip. right. right. left.
        exists valueId. split; [done|]. intros p Hin Ht Hv.
        by rewrite (valueMatches_intro _ _ _ p Hin Ht Hv) in Hm1. }
    destruct (valueMatches (Conflict.trait2Id conflict)
                (Conflict.trait2ValueId conflict) traitValuePairs) eqn:Hm2; cbn [negb].
    2:{ exists traitValuePairs. split; [done|].
        apply resolveConflicts_skip. right. right. right.
        destruct (Conflict.trait2ValueId conflict) as [v2|]; [|discriminate Hm2].
        exists v2. split; [done|]. intros p Hin Ht Hv.
        by rewrite (valueMatches_intro _ _ _ p Hin Ht Hv) in Hm2. }
    apply list_find_Some in Hf1 as (Hi & Hti & _).
    exists (setTraitValue i None traitValuePairs). split; [done|].
    apply resolveConflicts_skip. right. right. left.
    exists valueId. split; [done|]. intros p Hin Ht Hv.
    apply list_elem_of_lookup_1 in Hin as [k Hk]. unfold setTraitValue in Hk.
    destruct (decide (i = k)) as [->|Hne].
    - rewrite list_lookup_alter_eq, Hi in Hk. simpl in Hk. injection Hk as <-.
      discriminate Hv.
    - rewrite list_lookup_alter_ne in Hk by done.
      destruct Hne. eapply pairTraitId_position; eauto. congruence. }
  destruct Hfixed as (resolved & Hfirst & Hsecond).
  change (resolveConflicts env traitValuePairs [conflict; conflict] traitValuesDict tick)
    with (bind (resolveConflict env traitValuesDict traitValuePairs conflict)
            (fun pairs => resolveConflicts env pairs [conflict] traitValuesDict) tick).
  rewrite resolveConflicts_single. unfold bind. by rewrite Hfirst.
Qed.

Lemma dropFirst_twice_witness :
  resolveConflicts (constantEnv 0) laserSmile
    [Conflict.mk "eyes" (Some "laser") "mouth" None Trait1None;
     Conflict.mk "eyes" (Some "laser") "mouth" None Trait1None] conflictPools 0%nat
  = resolveConflicts (constantEnv 0) laserSmile
      [Conflict.mk "eyes" (Some "laser") "mouth" None Trait1None] conflictPools 0%nat.
Proof.
  apply (dropFirst_twice (constantEnv 0) conflictPools laserSmile
           (Conflict.mk "eyes" (Some "laser") "mouth" None Trait1None) "laser" 0%nat).
  - reflexivity.
  - reflexivity.
  - simpl. apply NoDup_cons. split; [|apply NoDup_singleton].
    intros Hin. apply list_elem_of_singleton in Hin. discriminate.
Defined.

(** ** Depletion, key by key *)

Lemma removeUsedOfTrait_shrinks trait traitValues composite traitValues' key values :
  removeUsedOfTrait trait traitValues composite = Returns traitValues' ->
  traitValues !! key = Some values ->
  exists values',
    traitValues' !! key = Some values' /\
    values' `sublist_of` values /\
    (length values <= S (length values'))%nat /\
    (key <> Trait.id trait \/ Trait.isAlwaysUnique trait = false -> values' = values).
Proof.
  unfold removeUsedOfTrait. intros Hrun Hvalues.
  destruct (Trait.isAlwaysUnique trait) eqn:Hunique.
  2:{ injection Hrun as <-. exists values. split; [done|]. split; [done|].
      split; [lia | done]. }
  destruct (traitValues !! Trait.id trait) as [pool|] eqn:Hpool; [|discriminate].
  destruct (list_find _ pool) as [[index found]|] eqn:Hfind; injection Hrun as <-.
  2:{ exists values. split; [done|]. split; [done|]. split; [lia | done]. }
  apply list_find_Some in Hfind as (Hfound & _ & _).
  destruct (decide (key = Trait.id trait)) as [->|Hne].
  - assert (pool = values) as -> by congruence.
    exists (splice1 index values). rewrite lookup_insert_eq. split; [done|].
    unfold splice1. split; [apply sublist_delete|]. split.
    + rewrite length_delete by by eexists. lia.
    + by intros [|].
  - exists values. rewrite lookup_insert_ne by done. split; [done|]. split; [done|].
    split; [lia | done].
Qed.

Lemma removeUsedOfTrait_dom trait traitValues composite traitValues' :
  removeUsedOfTrait trait traitValues composite = Returns traitValues' ->
  dom traitValues' = dom traitValues.
Proof.
  unfold removeUsedOfTrait. intros Hrun.
  destruct (Trait.isAlwaysUnique trait); [|by injection Hrun as <-].
  destruct (traitValues !! Trait.id trait) as [pool|] eqn:Hpool; [|discriminate].
  destruct (list_find _ pool) as [[index found]|]; injection Hrun as <-; [|done].
  by apply dom_insert_lookup_L.
Qed.

(** X13. [removeUsedAlwaysUniqueTraitValues] leaves alone every entry of
    the dictionary whose key is not the id of an always-unique trait: the
    pools of the weighted traits are never depleted. *)
Theorem removeUsed_leaves_other_pools (traits : list Trait.t)
  (traitValues : TraitValuesDict) (composite : ImageComposite.t)
  (traitValues' : TraitValuesDict) (key : string) :
  removeUsedAlwaysUniqueTraitValues traits traitValues composite = Returns traitValues' ->
  (forall trait, trait ∈ traits -> Trait.isAlwaysUnique trait = true ->
                 Trait.id trait <> key) ->
  traitValues' !! key = traitValues !! key.
Proof.
  revert traitValues. induction traits as [|trait rest IH]; intros traitValues Hrun Hkey.
  - by injection Hrun as <-.
  - simpl in Hrun.
    destruct (removeUsedOfTrait trait traitValues composite) as [step|] eqn:Hstep;
      [|discriminate].
    rewrite (IH step Hrun).
    2:{ intros other Hin. apply Hkey. apply elem_of_cons. by right. }
    unfold removeUsedOfTrait in Hstep.
    destruct (Trait.isAlwaysUnique trait) eqn:Hunique; [|by injection Hstep as <-].
    destruct (traitValues !! Trait.id trait) as [pool|]; [|discriminate].
    destruct (list_find _ pool) as [[index found]|]; injection Hstep as <-; [|done].
    rewrite lookup_insert_ne; [done|].
    apply Hkey; [apply elem_of_cons; by left | done].
Qed.

Lemma removeUsed_leaves_other_pools_witness :
  removeUsedAlwaysUniqueTraitValues [hat; background] hatPools crowned
    = Returns (<["hat" := []]> hatPools) /\
  (<["hat" := []]> hatPools : TraitValuesDict) !! "background"
    = hatPools !! "background".
Proof.
  assert (Hrun : removeUsedAlwaysUniqueTraitValues [hat; background] hatPools crowned
                 = Returns (<["hat" := []]> hatPools))
    by (vm_compute; reflexivity).
  split; [exact Hrun|].
  apply (removeUsed_leaves_other_pools [hat; background] hatPools crowned
           (<["hat" := []]> hatPools) "background" Hrun).
  intros trait Hin Hunique.
  apply elem_of_cons in Hin as [->|Hin]; [discriminate|].
  apply list_elem_of_singleton in Hin as ->. discriminate.
Defined.

(** X14. [removeUsedAlwaysUniqueTraitValues] returns when every
    always-unique trait has an entry in the dictionary, and then the
    dictionary keeps its keys. *)
Theorem removeUsed_returns_with_same_keys (traits : list Trait.t)
  (traitValues : TraitValuesDict) (composite : ImageComposite.t) :
  (forall trait, trait ∈ traits -> Trait.isAlwaysUnique trait = true ->
                 is_Some (traitValues !! Trait.id trait)) ->
  exists traitValues',
    removeUsedAlwaysUniqueTraitValues traits traitValues composite = Returns traitValues' /\
    dom traitValues' = dom traitValues.
Proof.
  revert traitValues. induction traits as [|trait rest IH]; intros traitValues Hentries.
  - by exists traitValues.
  - assert (Hstep : exists step, removeUsedOfTrait trait traitValues composite
                                 = Returns step).
    { unfold removeUsedOfTrait.
      destruct (Trait.isAlwaysUnique trait) eqn:Hunique; [|by eexists].
      destruct (Hentries trait) as [pool Hpool]; [apply elem_of_cons; by left|done|].
      rewrite Hpool. destruct (list_find _ pool) as [[index found]|]; by eexists. }
    destruct Hstep as [step Hstep].
    pose proof (removeUsedOfTrait_dom _ _ _ _ Hstep) as Hdom.
    destruct (IH step) as (traitValues' & Hrun & Hdom').
    { intros other Hin Hunique. apply elem_of_dom. rewrite Hdom. apply elem_of_dom.
      apply Hentries; [apply elem_of_cons; by right | done]. }
    exists traitValues'. simpl. rewrite Hstep. split; [done | congruence].
Qed.

Lemma removeUsed_returns_with_same_keys_witness :
  exists traitValues',
    removeUsedAlwaysUniqueTraitValues [hat; background] hatPools crowned
      = Returns traitValues' /\
    dom traitValues' = dom hatPools.
Proof.
  apply (removeUsed_returns_with_same_keys [hat; background] hatPools crowned).
  intros trait Hin Hunique.
  apply elem_of_cons in Hin as [->|Hin]; [by eexists|].
  apply list_elem_of_singleton in Hin as ->. discriminate.
Defined.

(** X15. [removeUsedAlwaysUniqueTraitValues] throws when an always-unique
    trait has no entry in the dictionary. *)
Theorem removeUsed_missing_pool_throws (traits : list Trait.t)
  (traitValues : TraitValuesDict) (composite : ImageComposite.t) (trait : Trait.t) :
  trait ∈ traits ->
  Trait.isAlwaysUnique trait = true ->
  traitValues !! Trait.id trait = None ->
  removeUsedAlwaysUniqueTraitValues traits traitValues composite = Throws.
Proof.
  revert traitValues.
  induction traits as [|first rest IH]; intros traitValues Hin Hunique Hmissing.
  - by apply elem_of_nil in Hin.
  - simpl.
    destruct (removeUsedOfTrait first traitValues composite) as [step|] eqn:Hstep;
      [|done].
    apply elem_of_cons in Hin as [->|Hin].
    + unfold removeUsedOfTrait in Hstep. by rewrite Hunique, Hmissing in Hstep.
    + apply IH; [done..|].
      apply not_elem_of_dom. rewrite (removeUsedOfTrait_dom _ _ _ _ Hstep).
      by apply not_elem_of_dom.
Qed.

Lemma removeUsed_missing_pool_throws_witness :
  removeUsedAlwaysUniqueTraitValues [background; hat] {["background" := [red]]} crowned
  = Throws.
Proof.
  apply (removeUsed_missing_pool_throws [background; hat] {["background" := [red]]}
           crowned hat).
  - apply elem_of_cons. right. apply elem_of_cons. by left.
  - reflexivity.
  - reflexivity.
Defined.

Lemma removeUsed_sublist (traits : list Trait.t)
  (traitValues : TraitValuesDict) (composite : ImageComposite.t)
  (traitValues' : TraitValuesDict) (key : string) (values : list TraitValue.t) :
  removeUsedAlwaysUniqueTraitValues traits traitValues composite = Returns traitValues' ->
  traitValues !! key = Some values ->
  exists values',
    traitValues' !! key = Some values' /\
    values' `sublist_of` values /\
    (NoDup (map Trait.id traits) -> (length values <= S (length values'))%nat).
Proof.
  revert traitValues values.
  induction traits as [|trait rest IH]; intros traitValues values Hrun Hvalues.
  - injection Hrun as <-. exists values. split; [done|]. split; [done|]. lia.
  - simpl in Hrun.
    destruct (removeUsedOfTrait trait traitValues composite) as [step|] eqn:Hstep;
      [|discriminate].
    destruct (removeUsedOfTrait_shrinks _ _ _ _ _ _ Hstep Hvalues)
      as (values1 & Hvalues1 & Hsub1 & Hlen1 & Hsame1).
    destruct (IH _ _ Hrun Hvalues1) as (values' & Hvalues' & Hsub & Hlen).
    exists values'. split; [done|]. split; [by etransitivity|].
    intros Hnd. simpl in Hnd. apply NoDup_cons in Hnd as [Hfresh Hnd].
    destruct (decide (key = Trait.id trait)) as [->|Hne].
    + rewrite (removeUsed_other _ _ _ _ _ Hrun Hfresh) in Hvalues'.
      assert (values' = values1) as -> by congruence. done.
    + rewrite (Hsame1 (or_introl Hne)) in Hlen. by apply Hlen.
Qed.

(** X16. After [removeUsedAlwaysUniqueTraitValues] each pool is a sublist
    of what it was, in the same order; when the traits have distinct ids a
    pool loses at most one value per composite. *)
Theorem removeUsed_shrinks_pools (traits : list Trait.t)
  (traitValues : TraitValuesDict) (composite : ImageComposite.t)
  (traitValues' : TraitValuesDict) (key : string) (values : list TraitValue.t) :
  removeUsedAlwaysUniqueTraitValues traits traitValues composite = Returns traitValues' ->
  traitValues !! key = Some values ->
  exists values',
    traitValues' !! key = Some values' /\
    values' `sublist_of` values /\
    (NoDup (map Trait.id traits) -> (length values <= S (length values'))%nat).
Proof. apply removeUsed_sublist. Qed.

Lemma removeUsed_shrinks_pools_witness :
  removeUsedAlwaysUniqueTraitValues [hat; background] hatPools crowned
    = Returns (<["hat" := []]> hatPools) /\
  exists values',
    (<["hat" := []]> hatPools : TraitValuesDict) !! "hat" = Some values' /\
    values' `sublist_of` [crown].
Proof.
  assert (Hrun : removeUsedAlwaysUniqueTraitValues [hat; background] hatPools crowned
                 = Returns (<["hat" := []]> hatPools))
    by (vm_compute; reflexivity).
  split; [exact Hrun|].
  destruct (removeUsed_shrinks_pools [hat; background] hatPools crowned
              (<["hat" := []]> hatPools) "hat" [crown] Hrun eq_refl)
    as (values' & Hvalues' & Hsub & _).
  exists values'. split; [exact Hvalues' | exact Hsub].
Defined.

(** ** The order of the layers *)

Section SortByZStable.
Context {A : Type} (z : A -> Z).

Lemma insertByZ_filter x (l : list A) (key : Z) :
  filter (fun y => z y = key) (insertByZ z x l)
  = filter (fun y => z y = key) (x :: l).
Proof.
  induction l as [|y l IH]; [done|]. simpl.
  destruct (Z.leb_spec (z x) (z y)) as [Hle|Hgt]; [done|].
  rewrite (filter_cons _ y), IH, !(filter_cons _ x), (filter_cons _ y).
  destruct (decide (z x = key)) as [Hx|Hx]; [|done].
  destruct (decide (z y = key)) as [Hy|Hy]; [lia | done].
Qed.

Lemma sortByZ_filter (l : list A) (key : Z) :
  filter (fun y => z y = key) (sortByZ z l) = filter (fun y => z y = key) l.
Proof.
  induction l as [|x l IH]; [done|]. simpl.
  rewrite insertByZ_filter, !filter_cons. by rewrite IH.
Qed.

Lemma ascending_nil : ascending z [].
Proof. intros i j x y Hx. by rewrite lookup_nil in Hx. Qed.

Lemma sortByZ_ascending_id (l : list A) : ascending z l -> sortByZ z l = l.
Proof.
  induction l as [|x l IH]; [done|]. intros Hasc. simpl.
  rewrite IH by by eapply ascending_tail.
  destruct l as [|y l]; [done|]. simpl.
  destruct (Z.leb_spec (z x) (z y)) as [Hle|Hgt]; [done|].
  pose proof (ascending_head z x (y :: l) y Hasc) as Hhead.
  specialize (Hhead ltac:(apply elem_of_cons; by left)). lia.
Qed.

End SortByZStable.

(** X17. [sortTraitValuePairs] returns the same pairs, ascending by the
    z-index of their traits, and is stable: the pairs of one z-index keep
    their order; a draw that is already in order is returned as it is. *)
Theorem sortTraitValuePairs_stable (traitValuePairs : list TraitValuePair.t) :
  let zIndexOf := fun pair => Trait.zIndex (TraitValuePair.trait pair) in
  sortTraitValuePairs traitValuePairs ≡ₚ traitValuePairs /\
  ascending zIndexOf (sortTraitValuePairs traitValuePairs) /\
  (forall zIndex : Z,
     filter (fun pair => zIndexOf pair = zIndex) (sortTraitValuePairs traitValuePairs)
     = filter (fun pair => zIndexOf pair = zIndex) traitValuePairs) /\
  (ascending zIndexOf traitValuePairs ->
   sortTraitValuePairs traitValuePairs = traitValuePairs).
Proof.
  intros zIndexOf. unfold sortTraitValuePairs. fold zIndexOf.
  split; [apply sortByZ_Permutation|]. split; [apply sortByZ_ascending|].
  split; [intros zIndex; apply sortByZ_filter | apply sortByZ_ascending_id].
Qed.

Lemma emitForPair_primary_only imageLayers pair :
  (forall layer companionId companionZIndex,
     TraitValuePair.imageLayer pair = Some layer ->
     ImageLayer.companionLayerId layer = Some companionId ->
     ImageLayer.companionLayerZIndex layer = Some companionZIndex ->
     list_find (fun imageLayer => ImageLayer.id imageLayer = companionId) imageLayers
       = None) ->
  emitForPair imageLayers pair
  = match TraitValuePair.imageLayer pair with
    | Some layer =>
        [OrderedImageLayer.mk layer (Trait.zIndex (TraitValuePair.trait pair))]
    | None => []
    end.
Proof.
  intros Hnone. unfold emitForPair.
  destruct (TraitValuePair.imageLayer pair) as [layer|]; [|done].
  destruct (ImageLayer.companionLayerId layer) as [companionId|] eqn:Hid; [|done].
  destruct (ImageLayer.companionLayerZIndex layer) as [companionZIndex|] eqn:Hz;
    [|done].
  by rewrite (Hnone layer companionId companionZIndex).
Qed.

(** X18. When no selected layer has a companion that the catalog holds
    (none declared, no z-index declared, or an id that the catalog does not
    know), the planner returns, for pairs in ascending z order, exactly the
    layers of the pairs that have one, in the order of the pairs. *)
Theorem layers_without_companions (sortedTraitValueImagePairs : list TraitValuePair.t)
  (imageLayers : list ImageLayer.t) :
  ascending (fun pair => Trait.zIndex (TraitValuePair.trait pair))
    sortedTraitValueImagePairs ->
  (forall pair layer companionId companionZIndex,
     pair ∈ sortedTraitValueImagePairs ->
     TraitValuePair.imageLayer pair = Some layer ->
     ImageLayer.companionLayerId layer = Some companionId ->
     ImageLayer.companionLayerZIndex layer = Some companionZIndex ->
     list_find (fun imageLayer => ImageLayer.id imageLayer = companionId) imageLayers
       = None) ->
  sortedImageLayersInjectingCompanions sortedTraitValueImagePairs imageLayers
  = omap TraitValuePair.imageLayer sortedTraitValueImagePairs.
Proof.
  intros Hasc Hnone. unfold sortedImageLayersInjectingCompanions.
  assert (Hemit : ascending OrderedImageLayer.zIndex
                    (emittedImageLayers sortedTraitValueImagePairs imageLayers) /\
                  map OrderedImageLayer.imageLayer
                    (emittedImageLayers sortedTraitValueImagePairs imageLayers)
                  = omap TraitValuePair.imageLayer sortedTraitValueImagePairs /\
                  forall e, e ∈ emittedImageLayers sortedTraitValueImagePairs imageLayers ->
                    exists pair, pair ∈ sortedTraitValueImagePairs /\
                      OrderedImageLayer.zIndex e
                      = Trait.zIndex (TraitValuePair.trait pair)).
  { induction sortedTraitValueImagePairs as [|pair rest IH].
    - split; [apply ascending_nil|]. split; [done|].
      intros e He. by apply elem_of_nil in He.
    - destruct IH as (IHasc & IHmap & IHin).
      { by eapply ascending_tail. }
      { intros p l c zc Hin. apply Hnone. apply elem_of_cons. by right. }
      unfold emittedImageLayers in *. simpl.
      rewrite (emitForPair_primary_only imageLayers pair).
      2:{ intros l c zc. apply Hnone. apply elem_of_cons. by left. }
      destruct (TraitValuePair.imageLayer pair) as [layer|] eqn:Hlayer; simpl.
      + split; [|split].
        * apply ascending_cons; [|done]. intros e He.
          destruct (IHin e He) as (p & Hp & ->). simpl.
          by apply (ascending_head _ pair rest p Hasc).
        * by rewrite IHmap.
        * intros e He. apply elem_of_cons in He as [->|He].
          -- exists pair. split; [apply elem_of_cons; by left | done].
          -- destruct (IHin e He) as (p & Hp & Hz). exists p.
             split; [apply elem_of_cons; by right | done].
      + split; [done|]. split; [done|]. intros e He.
        destruct (IHin e He) as (p & Hp & Hz). exists p.
        split; [apply elem_of_cons; by right | done]. }
  destruct Hemit as (Hsorted & Hlayers & _).
  by rewrite (sortByZ_ascending_id _ _ Hsorted).
Qed.

Lemma layers_without_companions_witness :
  sortedImageLayersInjectingCompanions [redPair; robePair; glowPair]
    [robeLayer; glowLayer]
  = [redLayer; robeLayer; glowLayer].
Proof.
  apply (layers_without_companions [redPair; robePair; glowPair] [robeLayer; glowLayer]).
  - intros [|[|[|i]]] [|[|[|j]]] x y Hx Hy Hij; simpl in Hx, Hy;
      try lia; try discriminate;
      injection Hx as <-; injection Hy as <-; simpl; lia.
  - intros pair layer companionId companionZIndex Hin Hlayer Hid Hz.
    apply elem_of_cons in Hin as [->|Hin].
    { simpl in Hlayer. injection Hlayer as <-. discriminate. }
    apply elem_of_cons in Hin as [->|Hin].
    { simpl in Hlayer. injection Hlayer as <-. simpl in Hid. injection Hid as <-.
      reflexivity. }
    apply list_elem_of_singleton in Hin as ->.
    simpl in Hlayer. injection Hlayer as <-. discriminate.
Defined.

Lemma planner_layers (sortedTraitValueImagePairs : list TraitValuePair.t)
  (imageLayers : list ImageLayer.t) (layer : ImageLayer.t) :
  layer ∈ sortedImageLayersInjectingCompanions sortedTraitValueImagePairs imageLayers
  <->
  (exists pair,
      pair ∈ sortedTraitValueImagePairs /\
      TraitValuePair.imageLayer pair = Some layer) \/
  (exists pair primary companionId companionZIndex index,
      pair ∈ sortedTraitValueImagePairs /\
      TraitValuePair.imageLayer pair = Some primary /\
      ImageLayer.companionLayerId primary = Some companionId /\
      ImageLayer.companionLayerZIndex primary = Some companionZIndex /\
      list_find (fun imageLayer => ImageLayer.id imageLayer = companionId) imageLayers
        = Some (index, layer)).
Proof.
  unfold sortedImageLayersInjectingCompanions.
  change (map OrderedImageLayer.imageLayer
            (sortByZ OrderedImageLayer.zIndex
               (emittedImageLayers sortedTraitValueImagePairs imageLayers)))
    with (OrderedImageLayer.imageLayer <$>
            sortByZ OrderedImageLayer.zIndex
              (emittedImageLayers sortedTraitValueImagePairs imageLayers)).
  rewrite sortByZ_Permutation. rewrite list_elem_of_fmap.
  assert (Hemitted : forall e,
            e ∈ emittedImageLayers sortedTraitValueImagePairs imageLayers <->
            exists pair, pair ∈ sortedTraitValueImagePairs /\
                         e ∈ emitForPair imageLayers pair).
  { intros e. unfold emittedImageLayers.
    rewrite list_elem_of_In, in_concat. split.
    - intros (l & Hl & He). apply in_map_iff in Hl as (pair & <- & Hpair).
      exists pair. by rewrite !list_elem_of_In.
    - intros (pair & Hpair & He). exists (emitForPair imageLayers pair).
      split; [apply in_map; by apply list_elem_of_In | by apply list_elem_of_In]. }
  split.
  - intros (e & -> & He). apply Hemitted in He as (pair & Hpair & He).
    unfold emitForPair in He.
    destruct (TraitValuePair.imageLayer pair) as [primary|] eqn:Hprimary;
      [|by apply elem_of_nil in He].
    apply elem_of_cons in He as [->|He]; [left; by exists pair|].
    destruct (ImageLayer.companionLayerId primary) as [companionId|] eqn:Hid;
      [|by apply elem_of_nil in He].
    destruct (ImageLayer.companionLayerZIndex primary) as [companionZIndex|] eqn:Hz;
      [|by apply elem_of_nil in He].
    destruct (list_find _ imageLayers) as [[index companion]|] eqn:Hfind;
      [|by apply elem_of_nil in He].
    apply list_elem_of_singleton in He as ->. right.
    by exists pair, primary, companionId, companionZIndex, index.
  - intros [(pair & Hpair & Hlayer)
           |(pair & primary & companionId & companionZIndex & index
             & Hpair & Hprimary & Hid & Hz & Hfind)].
    + exists (OrderedImageLayer.mk layer (Trait.zIndex (TraitValuePair.trait pair))).
      split; [done|]. apply Hemitted. exists pair. split; [done|].
      unfold emitForPair. rewrite Hlayer. apply elem_of_cons. by left.
    + exists (OrderedImageLayer.mk layer companionZIndex).
      split; [done|]. apply Hemitted. exists pair. split; [done|].
      rewrite (emitForPair_companion _ _ _ _ _ _ _ Hprimary Hid Hz Hfind).
      apply elem_of_cons. right. apply elem_of_cons. by left.
Qed.

(** X19. The planner returns nothing but selected layers and the
    companions they declare: a layer is in the output exactly when it is
    the layer of a pair, or the first layer of the catalog whose id is the
    companion id of the layer of a pair that also declares a companion
    z-index. *)
Theorem planner_output_layers (sortedTraitValueImagePairs : list TraitValuePair.t)
  (imageLayers : list ImageLayer.t) (layer : ImageLayer.t) :
  layer ∈ sortedImageLayersInjectingCompanions sortedTraitValueImagePairs imageLayers
  <->
  (exists pair,
      pair ∈ sortedTraitValueImagePairs /\
      TraitValuePair.imageLayer pair = Some layer) \/
  (exists pair primary companionId companionZIndex index,
      pair ∈ sortedTraitValueImagePairs /\
      TraitValuePair.imageLayer pair = Some primary /\
      ImageLayer.companionLayerId primary = Some companionId /\
      ImageLayer.companionLayerZIndex primary = Some companionZIndex /\
      list_find (fun imageLayer => ImageLayer.id imageLayer = companionId) imageLayers
        = Some (index, layer)).
Proof. apply planner_layers. Qed.

(** ** The compositor and the index of the layers *)

(** X20. [compositeImages] hands to sharp only the paths that are neither
    null nor empty. It returns [true] exactly when there is such a path
    and sharp renders; it throws exactly when there is a single such path
    and sharp fails; in all other cases (no usable path, or several and a
    failure of sharp) it returns [false]. *)
Theorem compositeImages_outcomes (env : Env.t) (optInputFilePaths : list (option string))
  (outputFilePath : string) :
  let usable :=
    filter (fun f => truthy f = true) (omap (fun f => f) optInputFilePaths) in
  (compositeImages env optInputFilePaths outputFilePath = Returns true <->
   usable <> [] /\ Env.sharp env usable outputFilePath = true) /\
  (compositeImages env optInputFilePaths outputFilePath = Throws <->
   length usable = 1%nat /\ Env.sharp env usable outputFilePath = false) /\
  (compositeImages env optInputFilePaths outputFilePath = Returns false <->
   usable = [] \/
   ((2 <= length usable)%nat /\ Env.sharp env usable outputFilePath = false)).
Proof.
  intros usable. unfold compositeImages. fold usable.
  destruct usable as [|firstPath [|secondPath inputs]]; simpl;
    [|destruct (Env.sharp env [firstPath] outputFilePath)
     |destruct (Env.sharp env (firstPath :: secondPath :: inputs) outputFilePath)];
    repeat split;
    first [ done
          | lia
          | by intros [? ?]
          | by intros [|[? ?]]
          | intros [|[? ?]]; [done | lia]
          | intros [|[? ?]]; [done | simpl in *; lia]
          | intros _; by left
          | intros _; right; split; [simpl; lia | done] ].
Qed.

Lemma indexImageLayers_snoc imageLayers imageLayer :
  indexImageLayers (imageLayers ++ [imageLayer])
  = match ImageLayer.traitValueId imageLayer with
    | Some traitValueId =>
        if truthy traitValueId
        then <[traitValueId := imageLayer]> (indexImageLayers imageLayers)
        else indexImageLayers imageLayers
    | None => indexImageLayers imageLayers
    end.
Proof. unfold indexImageLayers. by rewrite fold_left_app. Qed.

(** The last layer of a list that represents a value id. *)
Lemma last_representing_snoc (imageLayers : list ImageLayer.t) (added : ImageLayer.t)
  (key : string) (layer : ImageLayer.t) :
  ImageLayer.traitValueId added <> Some key ->
  (exists i, (imageLayers ++ [added]) !! i = Some layer /\
             ImageLayer.traitValueId layer = Some key /\
             forall j other, (i < j)%nat -> (imageLayers ++ [added]) !! j = Some other ->
                             ImageLayer.traitValueId other <> Some key)
  <->
  (exists i, imageLayers !! i = Some layer /\
             ImageLayer.traitValueId layer = Some key /\
             forall j other, (i < j)%nat -> imageLayers !! j = Some other ->
                             ImageLayer.traitValueId other <> Some key).
Proof.
  intros Hadded. split.
  - intros (i & Hi & Hkey & Hlast). exists i.
    apply lookup_app_Some in Hi as [Hi|[Hge Hi]].
    + split; [done|]. split; [done|]. intros j other Hlt Hj.
      apply (Hlast j other Hlt). by apply lookup_app_l_Some.
    + apply list_lookup_singleton_Some in Hi as [_ <-]. done.
  - intros (i & Hi & Hkey & Hlast). exists i.
    split; [by apply lookup_app_l_Some|]. split; [done|].
    intros j other Hlt Hj.
    apply lookup_app_Some in Hj as [Hj|[Hge Hj]]; [by eapply Hlast|].
    apply list_lookup_singleton_Some in Hj as [_ <-]. done.
Qed.

Lemma indexImageLayers_last (imageLayers : list ImageLayer.t) (key : string)
  (layer : ImageLayer.t) :
  indexImageLayers imageLayers !! key = Some layer
  <->
  key <> "" /\
  exists i, imageLayers !! i = Some layer /\
            ImageLayer.traitValueId layer = Some key /\
            forall j other, (i < j)%nat -> imageLayers !! j = Some other ->
                            ImageLayer.traitValueId other <> Some key.
Proof.
  induction imageLayers as [|added imageLayers IH] using rev_ind.
  - unfold indexImageLayers. simpl. rewrite lookup_empty. split; [done|].
    intros (_ & i & Hi & _). by rewrite lookup_nil in Hi.
  - rewrite indexImageLayers_snoc.
    destruct (ImageLayer.traitValueId added) as [traitValueId|] eqn:Hadded.
    2:{ rewrite IH, last_representing_snoc; [done|]. by rewrite Hadded. }
    unfold truthy. destruct (decide (traitValueId = "")) as [->|Hne].
    { rewrite bool_decide_eq_true_2 by done. simpl.
      rewrite IH. split; intros (Hkey & Hexists); (split; [done|]).
      - apply last_representing_snoc; [|done]. rewrite Hadded. congruence.
      - eapply last_representing_snoc; [|done]. rewrite Hadded. congruence. }
    rewrite bool_decide_eq_false_2 by done. simpl.
    destruct (decide (traitValueId = key)) as [->|Hother].
    + rewrite lookup_insert_eq. split.
      * intros Hsame. injection Hsame as <-. split; [done|].
        exists (length imageLayers). split.
        { rewrite lookup_app_r by lia. by rewrite Nat.sub_diag. }
        split; [done|]. intros j other Hlt Hj.
        apply lookup_lt_Some in Hj. rewrite length_app in Hj. simpl in Hj. lia.
      * intros (_ & i & Hi & Hkey & Hlast).
        apply lookup_app_Some in Hi as [Hi|[Hge Hi]].
        -- apply lookup_lt_Some in Hi as Hlt.
           destruct (Hlast (length imageLayers) added Hlt); [|done].
           rewrite lookup_app_r by lia. by rewrite Nat.sub_diag.
        -- apply list_lookup_singleton_Some in Hi as [_ <-]. done.
    + rewrite lookup_insert_ne by done. rewrite IH.
      split; intros (Hkey & Hexists); (split; [done|]).
      * apply last_representing_snoc; [|done]. rewrite Hadded. congruence.
      * eapply last_representing_snoc; [|done]. rewrite Hadded. congruence.
Qed.

(** X21. The index built by [imageLayers.forEach] maps a value id to the
    last image layer of the list that represents it; layers without a
    value id, or with an empty one, are not indexed. *)
Theorem indexImageLayers_lookup (imageLayers : list ImageLayer.t) (key : string)
  (layer : ImageLayer.t) :
  indexImageLayers imageLayers !! key = Some layer
  <->
  key <> "" /\
  exists i, imageLayers !! i = Some layer /\
            ImageLayer.traitValueId layer = Some key /\
            forall j other, (i < j)%nat -> imageLayers !! j = Some other ->
                            ImageLayer.traitValueId other <> Some key.
Proof. apply indexImageLayers_last. Qed.

(** ** One item *)

Lemma liftOutcome_Returns {A} (o : Outcome A) tick a tick' :
  liftOutcome o tick = Returns (a, tick') -> o = Returns a /\ tick = tick'.
Proof. destruct o; [|discriminate]. intros H. by injection H as -> ->. Qed.

Lemma generateArtworkForItem_Returns_full this env itemIndex collection traits
  traitValues layerIndex imageLayers conflicts downloadPath persisted tick composite tick' :
  generateArtworkForItem this env itemIndex collection traits traitValues layerIndex
    imageLayers conflicts downloadPath persisted tick = Returns (Some composite, tick') ->
  exists base resolved tick1,
    drawUnusedPairs env traits traitValues persisted (Nat.pred numRetries) tick
      = Returns ((base, false), tick1) /\
    resolveConflicts env base conflicts traitValues tick1 = Returns (resolved, tick') /\
    composite
    = ImageComposite.mk
        (Env.upload env
           (ArtworkGenerator.projectId this +:+ "/" +:+ Collection.id collection +:+
            "/generated/" +:+ ArtworkGenerator.compositeGroupId this +:+ "/" +:+
            pretty itemIndex +:+ ".png"))
        (sortTraitValuePairs (map (attachImageLayer layerIndex) resolved))
        (traitsHash (sortTraitValuePairs (map (attachImageLayer layerIndex) resolved))) /\
    compositeImages env
      (map (fun imageLayer => Some (downloadPathForImageLayer this env imageLayer))
         (sortedImageLayersInjectingCompanions
            (sortTraitValuePairs (map (attachImageLayer layerIndex) resolved))
            imageLayers))
      (pathJoin downloadPath (pretty itemIndex +:+ ".png"))
    = Returns true.
Proof.
  unfold generateArtworkForItem. intros Hrun.
  invert_bind Hrun as drawn Hdrawn. destruct drawn as [base failed].
  destruct failed; [apply ret_Returns in Hrun as [Hrun _]; discriminate|].
  invert_bind Hrun as resolved Hresolved.
  invert_bind Hrun as succeeded Hcomposited.
  apply liftOutcome_Returns in Hcomposited as [Hcomposited <-].
  destruct succeeded; [|apply ret_Returns in Hrun as [Hrun _]; discriminate].
  apply ret_Returns in Hrun as [Hrun <-]. injection Hrun as <-.
  exists base, resolved. eauto 10.
Qed.

Lemma randomTraitValues_ticks env traits traitValues tick pairs tick' :
  randomTraitValues env traits traitValues tick = Returns (pairs, tick') ->
  tick' = (tick + length traits)%nat.
Proof.
  revert tick pairs. induction traits as [|trait rest IH]; intros tick pairs Hrun.
  - apply ret_Returns in Hrun as [_ <-]. simpl. lia.
  - simpl in Hrun. invert_bind Hrun as values Hlookup.
    apply lookupValues_Returns in Hlookup as [_ <-].
    invert_bind Hrun as drawn Hdraw. invert_bind Hrun as others Hrest.
    apply ret_Returns in Hrun as [_ <-].
    destruct (randomValue_one_request env values (Trait.isAlwaysUnique trait) tick)
      as [v Hv].
    rewrite Hv in Hdraw. injection Hdraw as _ <-.
    rewrite (IH _ _ Hrest). simpl. lia.
Qed.

Lemma drawUnusedPairs_ticks env traits traitValues persisted retriesAfter tick result tick' :
  drawUnusedPairs env traits traitValues persisted retriesAfter tick
    = Returns (result, tick') ->
  (tick + length traits <= tick' <= tick + S retriesAfter * length traits)%nat.
Proof.
  revert tick. induction retriesAfter as [|n IH]; intros tick Hrun; simpl in Hrun.
  - invert_bind Hrun as draw Hdraw. apply ret_Returns in Hrun as [_ <-].
    apply randomTraitValues_ticks in Hdraw. lia.
  - invert_bind Hrun as draw Hdraw. apply randomTraitValues_ticks in Hdraw.
    destruct (isUniqueTraitsHash _ _).
    + apply ret_Returns in Hrun as [_ <-]. lia.
    + apply IH in Hrun. lia.
Qed.

(** X22. A composite that [generateArtworkForItem] returns holds one pair
    per trait of the scope, ascending by z-index; a pair that has an image
    layer has a value, and the layer is the one the index gives for the id
    of that value; at least one pair has an image layer; and the hash is
    the hash of these pairs. *)
Theorem generateArtworkForItem_composite (this : ArtworkGenerator.t) (env : Env.t)
  (itemIndex : Z) (collection : Collection.t) (traits : list Trait.t)
  (traitValues : TraitValuesDict) (layerIndex : gmap string ImageLayer.t)
  (imageLayers : list ImageLayer.t) (conflicts : list Conflict.t)
  (downloadPath : string) (persisted : list ImageComposite.t) (tick : nat)
  (composite : ImageComposite.t) (tick' : nat) :
  generateArtworkForItem this env itemIndex collection traits traitValues layerIndex
    imageLayers conflicts downloadPath persisted tick = Returns (Some composite, tick') ->
  map TraitValuePair.trait (ImageComposite.traits composite) ≡ₚ traits /\
  ascending (fun pair => Trait.zIndex (TraitValuePair.trait pair))
    (ImageComposite.traits composite) /\
  (forall pair layer,
     pair ∈ ImageComposite.traits composite ->
     TraitValuePair.imageLayer pair = Some layer ->
     exists value,
       TraitValuePair.traitValue pair = Some value /\
       layerIndex !! TraitValue.id value = Some layer) /\
  (exists pair,
     pair ∈ ImageComposite.traits composite /\
     is_Some (TraitValuePair.imageLayer pair)) /\
  ImageComposite.traitsHash composite = traitsHash (ImageComposite.traits composite).
Proof.
  intros Hitem.
  apply generateArtworkForItem_Returns_full in Hitem
    as (base & resolved & tick1 & Hdraw & Hresolve & -> & Hcomposited).
  apply drawUnusedPairs_Returns in Hdraw as (Hbase & _ & _).
  apply resolveConflicts_Returns in Hresolve as [Htraits _].
  simpl. split; [|split; [|split; [|split]]].
  - rewrite sortTraitValuePairs_Permutation, map_map. simpl.
    rewrite <- Hbase, <- Htraits. done.
  - apply sortByZ_ascending.
  - intros pair layer Hin Hlayer.
    rewrite sortTraitValuePairs_Permutation in Hin.
    apply list_elem_of_fmap in Hin as (before & -> & _).
    unfold attachImageLayer, pairValueId in Hlayer. simpl in *.
    destruct (TraitValuePair.traitValue before) as [value|]; [|discriminate].
    simpl in Hlayer. exists value. split; [done|].
    by destruct (truthy (TraitValue.id value)).
  - set (sorted := sortTraitValuePairs (map (attachImageLayer layerIndex) resolved)) in *.
    destruct (sortedImageLayersInjectingCompanions sorted imageLayers)
      as [|layer layers] eqn:Hlayers; [discriminate Hcomposited|].
    assert (Hin : layer ∈ sortedImageLayersInjectingCompanions sorted imageLayers)
      by (rewrite Hlayers; apply elem_of_cons; by left).
    apply planner_layers in Hin
      as [(pair & Hpair & Hlayer)|(pair & primary & _ & _ & _ & Hpair & Hlayer & _)];
      exists pair; (split; [done|]); by eexists.
  - done.
Qed.

Lemma generateArtworkForItem_composite_witness :
  map TraitValuePair.trait (ImageComposite.traits redComposite) ≡ₚ [background] /\
  exists pair,
    pair ∈ ImageComposite.traits redComposite /\
    is_Some (TraitValuePair.imageLayer pair).
Proof.
  destruct (generateArtworkForItem_composite (batch 0 3) (constantEnv 0) 0
              (Collection.mk "collection" 3) [background] {["background" := [red]]}
              (indexImageLayers [redLayer]) [redLayer] []
              (projectDownloadPath (batch 0 3) (constantEnv 0)) [] 0%nat
              redComposite 1%nat) as (Htraits & _ & _ & Hlayer & _).
  - vm_compute. reflexivity.
  - split; [exact Htraits | exact Hlayer].
Defined.

(** X23. A call of [generateArtworkForItem] that returns has asked for at
    least one random number per trait and at most twenty per trait plus
    ten per conflict. *)
Theorem generateArtworkForItem_random_budget (this : ArtworkGenerator.t) (env : Env.t)
  (itemIndex : Z) (collection : Collection.t) (traits : list Trait.t)
  (traitValues : TraitValuesDict) (layerIndex : gmap string ImageLayer.t)
  (imageLayers : list ImageLayer.t) (conflicts : list Conflict.t)
  (downloadPath : string) (persisted : list ImageComposite.t) (tick : nat)
  (result : option ImageComposite.t) (tick' : nat) :
  generateArtworkForItem this env itemIndex collection traits traitValues layerIndex
    imageLayers conflicts downloadPath persisted tick = Returns (result, tick') ->
  (tick + length traits <= tick'
   <= tick + 20 * length traits + 10 * length conflicts)%nat.
Proof.
  unfold generateArtworkForItem. intros Hrun.
  invert_bind Hrun as drawn Hdrawn. destruct drawn as [base failed].
  apply drawUnusedPairs_ticks in Hdrawn. unfold numRetries in Hdrawn. simpl in Hdrawn.
  destruct failed; [apply ret_Returns in Hrun as [_ <-]; lia|].
  invert_bind Hrun as resolved Hresolved.
  apply resolveConflicts_resolvedFrom in Hresolved as [_ Hticks].
  invert_bind Hrun as succeeded Hcomposited.
  apply liftOutcome_Returns in Hcomposited as [_ <-].
  destruct succeeded; apply ret_Returns in Hrun as [_ <-]; lia.
Qed.

Lemma generateArtworkForItem_random_budget_witness :
  (0 + length [background] <= 20
   <= 0 + 20 * length [background] + 10 * length (@nil Conflict.t))%nat.
Proof.
  apply (generateArtworkForItem_random_budget (batch 1 2) lateBlueEnv 1
           (Collection.mk "collection" 3) [background] twoValues
           (indexImageLayers [redLayer]) [redLayer] []
           (projectDownloadPath (batch 1 2) lateBlueEnv) persistedRed 0%nat None 20%nat).
  vm_compute. reflexivity.
Defined.

(** ** The batch *)



Lemma prefetch_dom (db : Database.t) traits valuesWithImages (dict : TraitValuesDict) :
  dom (fold_left
         (fun dict trait =>
            <[Trait.id trait := Database.traitValues db trait valuesWithImages]> dict)
         traits dict)
  = dom dict ∪ list_to_set (map Trait.id traits).
Proof.
  revert dict. induction traits as [|trait rest IH]; intros dict; simpl.
  - by rewrite (right_id_L ∅ (∪)).
  - rewrite IH, dom_insert_L.
    by rewrite (comm_L (∪) {[Trait.id trait]} (dom dict)), <- (assoc_L (∪)).
Qed.

(** X25. The dictionary of pools that [generate] prefetches has exactly
    the ids of the traits as keys, so it is empty only when there is no
    trait (the test on its size cannot decide once the test on the traits
    has passed); when the ids are distinct, the entry of a trait is the
    list read for it. *)
Theorem prefetchTraitValues_entries (db : Database.t) (traits : list Trait.t)
  (valuesWithImages : gset string) :
  dom (prefetchTraitValues db traits valuesWithImages)
    = list_to_set (map Trait.id traits) /\
  (size (prefetchTraitValues db traits valuesWithImages) = 0%nat <-> traits = []) /\
  (NoDup (map Trait.id traits) ->
   forall trait, trait ∈ traits ->
     prefetchTraitValues db traits valuesWithImages !! Trait.id trait
     = Some (Database.traitValues db trait valuesWithImages)).
Proof.
  split; [|split].
  - unfold prefetchTraitValues. rewrite prefetch_dom, dom_empty_L.
    by rewrite (left_id_L ∅ (∪)).
  - split.
    + intros Hsize. destruct traits as [|trait rest]; [done|].
      by apply prefetchTraitValues_size in Hsize.
    + by intros ->.
  - intros Hnd trait Hin. by apply prefetchTraitValues_lookup.
Qed.

Lemma created_all (composites : list (option ImageComposite.t)) :
  Forall is_Some composites ->
  length (created composites) = length composites /\
  forall k composite, composites !! k = Some (Some composite) ->
                      created composites !! k = Some composite.
Proof.
  unfold created. induction composites as [|first rest IH]; intros Hsome.
  - split; [done|]. intros k c Hk. by rewrite lookup_nil in Hk.
  - apply Forall_cons in Hsome as [[c ->] Hsome]. destruct (IH Hsome) as [Hlen Hlookup].
    simpl. split; [f_equal; exact Hlen|].
    intros [|k] composite Hk; simpl in *; [by injection Hk as -> | by apply Hlookup].
Qed.

Section Ledger.
Context (this : ArtworkGenerator.t) (env : Env.t) (db : Database.t) (tick : nat).

Lemma reachable_created_length s :
  reachable this env db tick s ->
  length (created (Loop.composites s)) = length (Loop.composites s).
Proof.
  intros Hreach. destruct (reachable_index this env db tick s Hreach) as (_ & Hsome & _).
  by destruct (created_all _ Hsome).
Qed.

Lemma reachable_persisted s :
  reachable this env db tick s ->
  Loop.persisted s = Database.composites db ++ created (Loop.composites s).
Proof.
  induction 1 as [|s s' Hreach IH Hlt Hbody].
  - simpl. by rewrite app_nil_r.
  - apply loopBody_Returns in Hbody
      as [(tick' & _ & ->)|(composite & tick' & traitValues & _ & _ & ->)]; simpl.
    + done.
    + by rewrite created_snoc, IH, app_assoc.
Qed.

Lemma reachable_urls s k composite :
  reachable this env db tick s ->
  created (Loop.composites s) !! k = Some composite ->
  ImageComposite.externalURL composite
  = Env.upload env
      (ArtworkGenerator.projectId this +:+ "/" +:+
       Collection.id (Database.collection db) +:+ "/generated/" +:+
       ArtworkGenerator.compositeGroupId this +:+ "/" +:+
       pretty (ArtworkGenerator.startIndex this + Z.of_nat k) +:+ ".png").
Proof.
  intros Hreach. revert k composite.
  induction Hreach as [|s s' Hreach IH Hlt Hbody]; intros k composite Hk.
  - simpl in Hk. by rewrite lookup_nil in Hk.
  - apply loopBody_Returns in Hbody
      as [(tick' & _ & ->)|(made & tick' & traitValues & Hitem & _ & ->)];
      simpl in Hk; [by apply IH|].
    rewrite created_snoc in Hk.
    apply lookup_app_Some in Hk as [Hk|[Hge Hk]]; [by apply IH|].
    apply list_lookup_singleton_Some in Hk as [Hzero <-].
    rewrite (reachable_created_length s Hreach) in Hge, Hzero.
    destruct (reachable_index this env db tick s Hreach) as (Hi & _ & _).
    unfold itemAt in Hitem.
    apply generateArtworkForItem_Returns_full in Hitem
      as (base & resolved & tick1 & _ & _ & -> & _).
    simpl.
    replace (Loop.i s) with (ArtworkGenerator.startIndex this + Z.of_nat k) by lia.
    done.
Qed.

Lemma reachable_pools s key values :
  reachable this env db tick s ->
  Loop.traitValues (initialLoop this db tick) !! key = Some values ->
  exists remaining,
    Loop.traitValues s !! key = Some remaining /\ remaining `sublist_of` values.
Proof.
  induction 1 as [|s s' Hreach IH Hlt Hbody]; intros Hvalues.
  - by exists values.
  - destruct (IH Hvalues) as (remaining & Hremaining & Hsub).
    apply loopBody_Returns in Hbody
      as [(tick' & _ & ->)|(made & tick' & traitValues & _ & Hremove & ->)]; simpl.
    + by exists remaining.
    + destruct (removeUsed_sublist _ _ _ _ _ _ Hremove Hremaining)
        as (remaining' & Hremaining' & Hsub' & _).
      exists remaining'. split; [done|]. by etransitivity.
Qed.

End Ledger.

(** X26. In every state of the loop the store of the run scope holds what
    it held when the batch started, followed by the composites of the
    result, in the order of the result: a composite is in the result
    exactly when [generate] has persisted it. *)
Theorem generate_persists_what_it_returns (this : ArtworkGenerator.t) (env : Env.t)
  (db : Database.t) (tick : nat) (s : Loop.t) :
  reachable this env db tick s ->
  Loop.persisted s = Database.composites db ++ created (Loop.composites s) /\
  length (created (Loop.composites s)) = length (Loop.composites s).
Proof.
  intros Hreach. split.
  - exact (reachable_persisted this env db tick s Hreach).
  - exact (reachable_created_length this env db tick s Hreach).
Qed.

Lemma generate_persists_what_it_returns_witness :
  Loop.persisted (afterFirstItem 1)
  = Database.composites singleValueDb ++ created (Loop.composites (afterFirstItem 1)) /\
  length (created (Loop.composites (afterFirstItem 1)))
  = length (Loop.composites (afterFirstItem 1)).
Proof.
  apply (generate_persists_what_it_returns (batch 0 3) (constantEnv 0) singleValueDb 0).
  apply (reachable_step _ _ _ _ (initialLoop (batch 0 3) singleValueDb 0)).
  - apply reachable_init.
  - vm_compute. reflexivity.
  - vm_compute. reflexivity.
Defined.

(** X27. The composites of the result stand in the order of the item
    indices: the composite at position [k] was rendered and uploaded as the
    item [startIndex + k], whatever number of attempts the items before it
    took. *)
Theorem generate_result_follows_the_indices (this : ArtworkGenerator.t) (env : Env.t)
  (db : Database.t) (tick : nat) (s : Loop.t) (k : nat) (composite : ImageComposite.t) :
  reachable this env db tick s ->
  Loop.composites s !! k = Some (Some composite) ->
  ImageComposite.externalURL composite
  = Env.upload env
      (ArtworkGenerator.projectId this +:+ "/" +:+
       Collection.id (Database.collection db) +:+ "/generated/" +:+
       ArtworkGenerator.compositeGroupId this +:+ "/" +:+
       pretty (ArtworkGenerator.startIndex this + Z.of_nat k) +:+ ".png").
Proof.
  intros Hreach Hk. apply (reachable_urls this env db tick s k composite Hreach).
  destruct (reachable_index this env db tick s Hreach) as (_ & Hsome & _).
  destruct (created_all _ Hsome) as [_ Hlookup]. by apply Hlookup.
Qed.

Lemma generate_result_follows_the_indices_witness :
  ImageComposite.externalURL smiling1
  = Env.upload (constantEnv 0) "project/collection/generated/group/1.png".
Proof.
  apply (generate_result_follows_the_indices (batch 0 2) (constantEnv 0) conflictDb 0
           afterSmiling1 1%nat smiling1).
  - apply (reachable_step _ _ _ _ afterSmiling0).
    + apply (reachable_step _ _ _ _ (initialLoop (batch 0 2) conflictDb 0)).
      * apply reachable_init.
      * vm_compute. reflexivity.
      * vm_compute. reflexivity.
    + vm_compute. reflexivity.
    + vm_compute. reflexivity.
  - reflexivity.
Defined.

(** X28. In every state of the loop each pool of the dictionary is a
    sublist, in the same order, of the pool the batch started with: the
    loop only ever takes values out of the pools. *)
Theorem generate_pools_only_shrink (this : ArtworkGenerator.t) (env : Env.t)
  (db : Database.t) (tick : nat) (s : Loop.t) (key : string)
  (values : list TraitValue.t) :
  reachable this env db tick s ->
  Loop.traitValues (initialLoop this db tick) !! key = Some values ->
  exists remaining,
    Loop.traitValues s !! key = Some remaining /\ remaining `sublist_of` values.
Proof. apply (reachable_pools this env db tick s key values). Qed.

Lemma generate_pools_only_shrink_witness :
  exists remaining,
    Loop.traitValues afterCrown !! "hat" = Some remaining /\
    remaining `sublist_of` [crown].
Proof.
  apply (generate_pools_only_shrink (batch 0 2) (constantEnv 0) hatDb 0 afterCrown
           "hat" [crown]).
  - apply (reachable_step _ _ _ _ (initialLoop (batch 0 2) hatDb 0)).
    + apply reachable_init.
    + vm_compute. reflexivity.
    + vm_compute. reflexivity.
  - reflexivity.
Defined.

(** ** The search for an unused draw, and the failures of the renderer *)





Lemma pathJoin_truthy a b : truthy (pathJoin a b) = true.
Proof.
  unfold truthy, pathJoin. rewrite bool_decide_eq_false_2; [done|].
  by destruct a.
Qed.

Lemma usable_download_paths this env (layers : list ImageLayer.t) :
  filter (fun f => truthy f = true)
    (omap (fun f => f)
       (map (fun imageLayer => Some (downloadPathForImageLayer this env imageLayer))
          layers))
  = map (downloadPathForImageLayer this env) layers.
Proof.
  induction layers as [|layer layers IH]; [done|].
  change (filter (fun f => truthy f = true)
            (downloadPathForImageLayer this env layer ::
             omap (fun f => f)
               (map (fun imageLayer =>
                       Some (downloadPathForImageLayer this env imageLayer)) layers))
          = downloadPathForImageLayer this env layer ::
            map (downloadPathForImageLayer this env) layers).
  rewrite filter_cons_True by apply pathJoin_truthy. by rewrite IH.
Qed.

(** X30. When the renderer fails on an item whose draw was found and
    resolved: with a single layer to render [generateArtworkForItem]
    throws (the promise of sharp is handed back without a handler), and
    with several layers it returns null. *)
Theorem generateArtworkForItem_render_failure (this : ArtworkGenerator.t) (env : Env.t)
  (itemIndex : Z) (collection : Collection.t) (traits : list Trait.t)
  (traitValues : TraitValuesDict) (layerIndex : gmap string ImageLayer.t)
  (imageLayers : list ImageLayer.t) (conflicts : list Conflict.t)
  (downloadPath : string) (persisted : list ImageComposite.t) (tick : nat)
  (base resolved : list TraitValuePair.t) (tick1 tick2 : nat)
  (layers : list ImageLayer.t) :
  drawUnusedPairs env traits traitValues persisted (Nat.pred numRetries) tick
    = Returns ((base, false), tick1) ->
  resolveConflicts env base conflicts traitValues tick1 = Returns (resolved, tick2) ->
  sortedImageLayersInjectingCompanions
    (sortTraitValuePairs (map (attachImageLayer layerIndex) resolved)) imageLayers
    = layers ->
  layers <> [] ->
  Env.sharp env (map (downloadPathForImageLayer this env) layers)
    (pathJoin downloadPath (pretty itemIndex +:+ ".png")) = false ->
  generateArtworkForItem this env itemIndex collection traits traitValues layerIndex
    imageLayers conflicts downloadPath persisted tick
  = if Nat.eqb (length layers) 1 then Throws else Returns (None, tick2).
Proof.
  intros Hdraw Hresolve Hlayers Hne Hfail.
  unfold generateArtworkForItem. unfold bind at 1. rewrite Hdraw.
  unfold bind at 1. rewrite Hresolve. rewrite Hlayers.
  unfold bind, liftOutcome, compositeImages. rewrite usable_download_paths.
  destruct layers as [|first [|second others]]; [done| |]; simpl in *.
  - by rewrite Hfail.
  - by rewrite Hfail.
Qed.

Lemma generateArtworkForItem_render_failure_witness :
  generateArtworkForItem (batch 0 1)
    (Env.mk (fun _ => 0%Q) (fun _ => 0) (fun _ _ => false) (fun path => Some path) "/tmp")
    0 (Collection.mk "collection" 3) [background] {["background" := [red]]}
    (indexImageLayers [redLayer]) [redLayer] [] "/tmp/out" [] 0%nat
  = Throws.
Proof.
  apply (generateArtworkForItem_render_failure (batch 0 1)
           (Env.mk (fun _ => 0%Q) (fun _ => 0) (fun _ _ => false)
                   (fun path => Some path) "/tmp")
           0 (Collection.mk "collection" 3) [background] {["background" := [red]]}
           (indexImageLayers [redLayer]) [redLayer] [] "/tmp/out" [] 0%nat
           [TraitValuePair.mk background (Some red) None]
           [TraitValuePair.mk background (Some red) None] 1%nat 1%nat [redLayer]).
  - vm_compute. reflexivity.
  - reflexivity.
  - vm_compute. reflexivity.
  - discriminate.
  - reflexivity.
Defined.
